(** * librascal GAP fitting tools: a shallow embedding of
      [bindings/rascal/models/gaptools.py]

    The module fits a sparse kernel model to energies and forces.  The
    numerical work is done on NumPy [float64] arrays.  Here a scalar is a
    real number: rounding, infinities and NaN are outside the model, so
    every statement below is about the exact arithmetic the code is written
    against.  Shapes, broadcasting and the exceptions NumPy raises on
    mismatching shapes are modelled as the code meets them.

    The same file embeds the list and loop structure of
    [scripts/generate_spherical_harmonics_ref_data.py] and the two text
    computations of [setup.py]. *)

From Stdlib Require Import String.
From Stdlib Require Import Reals Lra Lia List ZArith Bool Arith.
From Stdlib Require Import Permutation.
Import ListNotations.

Open Scope R_scope.

(** ** Exceptions and the result type *)

Inductive exn : Type :=
| TypeError      (* an operand is None *)
| ValueError     (* shapes cannot be broadcast / stacked / multiplied *)
| LinAlgError.   (* lstsq: incompatible dimensions *)

Inductive result (A : Type) : Type :=
| Ok  (a : A)
| Err (e : exn).
Arguments Ok {A} a.
Arguments Err {A} e.

Definition bind {A B : Type} (m : result A) (k : A -> result B) : result B :=
  match m with
  | Ok a => k a
  | Err e => Err e
  end.

Notation "x <- m ;; k" := (bind m (fun x => k))
  (at level 61, m at next level, right associativity).
Notation "' p <- m ;; k" := (bind m (fun x => let p := x in k))
  (at level 61, p pattern, m at next level, right associativity).

(** ** NumPy arrays

    A one-dimensional array is a list of scalars.  A two-dimensional array
    carries its column count, so that an array with no row still has a
    shape [(0, c)] as in NumPy. *)

Definition vector : Type := list R.

Record matrix : Type := mk_matrix {
  ncols : nat;
  rows  : list (list R)
}.

Definition nrows (A : matrix) : nat := length (rows A).

(** A NumPy array is rectangular. *)
Definition wf_matrix (A : matrix) : Prop :=
  Forall (fun r => length r = ncols A) (rows A).

Definition entry (A : matrix) (i j : nat) : R := nth j (nth i (rows A) []) 0.

(** *** Broadcasting *)

(** Broadcast of one dimension of two shapes. *)
Definition bdim (a b : nat) : option nat :=
  if (a =? b)%nat then Some a
  else if (a =? 1)%nat then Some b
  else if (b =? 1)%nat then Some a
  else None.

Fixpoint zip_with {A B C : Type} (f : A -> B -> C)
         (xs : list A) (ys : list B) : list C :=
  match xs, ys with
  | x :: xs', y :: ys' => f x y :: zip_with f xs' ys'
  | _, _ => []
  end.

(** Elementwise combination along one axis once the shapes are known to
    broadcast: equal lengths are paired, a length-1 operand is repeated. *)
Definition bmap2 {A B C : Type} (f : A -> B -> C)
           (xs : list A) (ys : list B) : list C :=
  if (length xs =? length ys)%nat then zip_with f xs ys
  else match xs, ys with
       | [x], _ => map (f x) ys
       | _, [y] => map (fun x => f x y) xs
       | _, _ => []
       end.

(** [u op v] for two 1-D arrays. *)
Definition np_broadcast1 (f : R -> R -> R) (u v : vector) : result vector :=
  match bdim (length u) (length v) with
  | Some _ => Ok (bmap2 f u v)
  | None => Err ValueError
  end.

(** [A op B] for two 2-D arrays. *)
Definition np_broadcast2 (f : R -> R -> R) (A B : matrix) : result matrix :=
  match bdim (nrows A) (nrows B), bdim (ncols A) (ncols B) with
  | Some _, Some c => Ok (mk_matrix c (bmap2 (bmap2 f) (rows A) (rows B)))
  | _, _ => Err ValueError
  end.

(** [v[:, np.newaxis]]: a vector as a column. *)
Definition newaxis_col (v : vector) : matrix :=
  mk_matrix 1 (map (fun x => [x]) v).

(** [c * v] and [v / c] with a scalar [c]. *)
Definition scalar_mul_vec (c : R) (v : vector) : vector := map (Rmult c) v.
Definition vec_div_scalar (v : vector) (c : R) : vector :=
  map (fun x => x / c) v.
Definition scalar_mul_mat (c : R) (A : matrix) : matrix :=
  mk_matrix (ncols A) (map (map (Rmult c)) (rows A)).
Definition mat_div_scalar (A : matrix) (c : R) : matrix :=
  mk_matrix (ncols A) (map (map (fun x => x / c)) (rows A)).

(** [np.sqrt] on an array of atom counts. *)
Definition np_sqrt (ns : list nat) : vector := map (fun n => sqrt (INR n)) ns.

(** [A.flatten()], row-major. *)
Definition flatten (A : matrix) : vector := concat (rows A).

(** [np.vstack((A, B))]: the column counts must agree. *)
Definition np_vstack (A B : matrix) : result matrix :=
  if (ncols A =? ncols B)%nat
  then Ok (mk_matrix (ncols A) (rows A ++ rows B))
  else Err ValueError.

(** [np.concatenate((u, v))] on 1-D arrays. *)
Definition np_concatenate (u v : vector) : vector := u ++ v.

(** [A.T] *)
Definition column (A : matrix) (j : nat) : list R :=
  map (fun r => nth j r 0) (rows A).

Definition transpose (A : matrix) : matrix :=
  mk_matrix (nrows A) (map (column A) (seq 0 (ncols A))).

Fixpoint dot (u v : list R) : R :=
  match u, v with
  | x :: u', y :: v' => x * y + dot u' v'
  | _, _ => 0
  end.

(** [A @ B] *)
Definition np_matmul (A B : matrix) : result matrix :=
  if (ncols A =? nrows B)%nat
  then Ok (mk_matrix (ncols B)
             (map (fun a => map (fun j => dot a (column B j))
                                (seq 0 (ncols B)))
                  (rows A)))
  else Err ValueError.

(** [A @ y] with a 1-D [y] *)
Definition np_matvec (A : matrix) (y : vector) : result vector :=
  if (ncols A =? length y)%nat
  then Ok (map (fun a => dot a y) (rows A))
  else Err ValueError.

(** ** Structures

    Of an [ase.Atoms] object the module reads the atomic numbers and the
    number of atoms. *)

Record Atoms : Type := mk_Atoms {
  numbers : list Z
}.

Definition get_atomic_numbers (geom : Atoms) : list Z := numbers geom.
Definition len (geom : Atoms) : nat := length (numbers geom).

(** A baseline table is a Python dict from species to energy per atom,
    given by its items in iteration order.  The keys of a dict are
    distinct. *)
Definition table : Type := list (Z * R).

Definition wf_table (t : table) : Prop := NoDup (map fst t).

Fixpoint table_get (t : table) (species : Z) : option R :=
  match t with
  | [] => None
  | (k, v) :: t' => if (k =? species)%Z then Some v else table_get t' species
  end.

(** [np.sum(a == species)] *)
Definition count_species (a : list Z) (species : Z) : nat :=
  length (filter (fun z => (z =? species)%Z) a).

(** ** [_get_energy_baseline] *)

Definition _get_energy_baseline (geom : Atoms) (atom_contributions : table)
  : R :=
  fold_left
    (fun e0 '(species, e0_value) =>
       e0 + e0_value * INR (count_species (get_atomic_numbers geom) species))
    atom_contributions 0.

(** ** [fit_gap_simple] *)

(** [A / c] where either operand may be [None] (an omitted keyword
    argument): Python raises [TypeError]. *)
Definition opt_mat_div_scalar (A : option matrix) (c : option R)
  : result matrix :=
  match A, c with
  | Some A, Some c => Ok (mat_div_scalar A c)
  | _, _ => Err TypeError
  end.

Definition opt_vec_div_scalar (v : vector) (c : option R) : result vector :=
  match c with
  | Some c => Ok (vec_div_scalar v c)
  | None => Err TypeError
  end.

(** Lines 213-228 of the function: the design matrix [K_NM] and the target
    vector [Y].  [forces] is taken in its [P x 3] view; negation and
    [flatten] commute with the reshape from [N x Q x 3]. *)
Definition fit_gap_simple_design
    (geoms : list Atoms) (energies : vector)
    (kernel_energies_sparse : matrix)
    (energy_regularizer_peratom : R) (energy_atom_contributions : table)
    (forces : option matrix) (kernel_gradients_sparse : option matrix)
    (force_regularizer : option R) : result (matrix * vector) :=
  let e0_all :=
    map (fun geom => _get_energy_baseline geom energy_atom_contributions)
        geoms in
  energies_shifted <- np_broadcast1 Rminus energies e0_all ;;
  let natoms_list := map len geoms in
  let energy_regularizer :=
    scalar_mul_vec energy_regularizer_peratom (np_sqrt natoms_list) in
  kernel_energies_norm <-
    np_broadcast2 Rdiv kernel_energies_sparse
                  (newaxis_col energy_regularizer) ;;
  match forces with
  | Some forces =>
      let gradients := scalar_mul_mat (-1) forces in
      kernel_gradients_norm <-
        opt_mat_div_scalar kernel_gradients_sparse force_regularizer ;;
      K_NM <- np_vstack kernel_energies_norm kernel_gradients_norm ;;
      Y_e <- np_broadcast1 Rdiv energies_shifted energy_regularizer ;;
      Y_g <- opt_vec_div_scalar (flatten gradients) force_regularizer ;;
      Ok (K_NM, np_concatenate Y_e Y_g)
  | None =>
      let K_NM := kernel_energies_norm in
      Y <- np_broadcast1 Rdiv energies_shifted energy_regularizer ;;
      Ok (K_NM, Y)
  end.

Section Fit.

(** [numpy.linalg.lstsq] is LAPACK's solver; it is a parameter of the
    development.  It returns a solution for every matrix of real numbers,
    of any rank.  A division by zero (a zero regularizer, a structure
    without atoms) puts [inf] or [nan] into the arrays, on which the solver
    raises; real numbers have neither, so a statement about the solver's
    answer carries the hypothesis that no divisor is zero. *)
Variable lstsq : matrix -> vector -> option R -> vector.

(** [np.linalg.lstsq(K, b, rcond=rcond)[0]]: the row count of [K] and the
    length of [b] must agree. *)
Definition np_linalg_lstsq (K : matrix) (b : vector) (rcond : option R)
  : result vector :=
  if (nrows K =? length b)%nat then Ok (lstsq K b rcond)
  else Err LinAlgError.

Definition fit_gap_simple
    (geoms : list Atoms) (kernel_sparse : matrix) (energies : vector)
    (kernel_energies_sparse : matrix)
    (energy_regularizer_peratom : R) (energy_atom_contributions : table)
    (forces : option matrix) (kernel_gradients_sparse : option matrix)
    (force_regularizer : option R) (rcond : option R) : result vector :=
  '(K_NM, Y) <-
    fit_gap_simple_design geoms energies kernel_energies_sparse
      energy_regularizer_peratom energy_atom_contributions
      forces kernel_gradients_sparse force_regularizer ;;
  KtK <- np_matmul (transpose K_NM) K_NM ;;
  K <- np_broadcast2 Rplus kernel_sparse KtK ;;
  b <- np_matvec (transpose K_NM) Y ;;
  np_linalg_lstsq K b rcond.

End Fit.

(** ** [compute_kernels] *)

(** An array of either rank; [np.array([])] is the empty 1-D array. *)
Inductive ndarray : Type :=
| Array1 (v : vector)
| Array2 (m : matrix).

Definition np_array_empty : ndarray := Array1 [].

Section Kernels.

(** The representation, the feature vectors, the sparse points and the
    kernel object belong to collaborators; so does the evaluation of a
    kernel. *)
Context {Representation Features SparsePoints Kernel : Type}.

(** [models.Kernel(rep, name=.., zeta=.., target_type=.., kernel_type=..)] *)
Variable models_Kernel :
  Representation -> string -> Z -> string -> string -> Kernel.

(** [kernel(X)] *)
Variable kernel_self : Kernel -> SparsePoints -> ndarray.

(** [kernel(X, Y, grad=(gx, gy))]; [grad] defaults to [(False, False)]. *)
Variable kernel_cross :
  Kernel -> Features -> SparsePoints -> bool * bool -> ndarray.

(** What the function does to the outside, in order: evaluations of the
    kernel and [np.save] of an array under a name in [WORKDIR]. *)
Inductive event : Type :=
| EvalSelf (X : SparsePoints)
| EvalCross (X : Features) (Y : SparsePoints) (grad : bool * bool)
| NpSave (name : string) (a : ndarray).

(** The returned tuple has three or four components. *)
Inductive kernels : Type :=
| Tuple3 (kernel : Kernel) (kernel_sparse kernel_sparse_full : ndarray)
| Tuple4 (kernel : Kernel)
         (kernel_sparse kernel_sparse_full kernel_sparse_full_grads : ndarray).

Definition compute_kernels
    (rep : Representation) (soaps : Features) (sparse_points : SparsePoints)
    (soap_power : Z) (do_gradients compute_sparse_kernel : bool)
  : kernels * list event :=
  let kernel :=
    models_Kernel rep "GAP"%string soap_power
                  "Structure"%string "Sparse"%string in
  let '(kernel_sparse, log1) :=
    if compute_sparse_kernel then
      let kernel_sparse := kernel_self kernel sparse_points in
      (kernel_sparse,
       [EvalSelf sparse_points; NpSave "K_MM"%string kernel_sparse])
    else
      (np_array_empty, []) in
  let kernel_sparse_full :=
    kernel_cross kernel soaps sparse_points (false, false) in
  let log2 :=
    log1 ++ [EvalCross soaps sparse_points (false, false);
             NpSave "K_NM_E"%string kernel_sparse_full] in
  if do_gradients then
    let kernel_sparse_full_grads :=
      kernel_cross kernel soaps sparse_points (true, false) in
    (Tuple4 kernel kernel_sparse kernel_sparse_full kernel_sparse_full_grads,
     log2 ++ [EvalCross soaps sparse_points (true, false);
              NpSave "K_NM_F"%string kernel_sparse_full_grads])
  else
    (Tuple3 kernel kernel_sparse kernel_sparse_full, log2).

Definition tuple_length (k : kernels) : nat :=
  match k with
  | Tuple3 _ _ _ => 3
  | Tuple4 _ _ _ _ => 4
  end.

Definition sparse_kernel_of (k : kernels) : ndarray :=
  match k with
  | Tuple3 _ ks _ => ks
  | Tuple4 _ ks _ _ => ks
  end.

(** The last component, when it is the gradient kernel. *)
Definition gradient_kernel_of (k : kernels) : option ndarray :=
  match k with
  | Tuple3 _ _ _ => None
  | Tuple4 _ _ _ g => Some g
  end.

Definition is_eval_self (e : event) : bool :=
  match e with
  | EvalSelf _ => true
  | _ => false
  end.

End Kernels.

(** ** [fit_gap_simple] on the object store

    Arrays and [Atoms] objects are Python objects: the caller and the
    function hold references to them.  The store lists the live objects; a
    reference is an index into it and a new object is appended.  Floats and
    the baseline dict are passed by value. *)

Inductive object : Type :=
| ObjAtoms  (g : Atoms)
| ObjFloat1 (v : vector)
| ObjFloat2 (m : matrix)
| ObjInt1   (a : list Z)       (* atomic numbers *)
| ObjCount1 (a : list nat)     (* atom counts *)
| ObjBool1  (a : list bool).   (* a mask *)

Definition ref : Type := nat.
Definition store : Type := list object.

(** A computation reads and extends the store and returns or raises. *)
Definition ST (A : Type) : Type := store -> result A * store.

Definition st_ret {A : Type} (a : A) : ST A := fun s => (Ok a, s).

Definition st_lift {A : Type} (r : result A) : ST A := fun s => (r, s).

Definition st_bind {A B : Type} (m : ST A) (k : A -> ST B) : ST B :=
  fun s =>
    match m s with
    | (Ok a, s') => k a s'
    | (Err e, s') => (Err e, s')
    end.

Notation "x <~ m ;; k" := (st_bind m (fun x => k))
  (at level 61, m at next level, right associativity).

(** A new object. *)
Definition alloc (o : object) : ST ref :=
  fun s => (Ok (length s), s ++ [o]).

(** Overwriting an object in place, as [a /= c] or [a[i] = x] would. *)
Fixpoint overwrite (s : store) (r : ref) (o : object) : store :=
  match s, r with
  | [], _ => []
  | _ :: s', O => o :: s'
  | x :: s', S r' => x :: overwrite s' r' o
  end.

Definition assign (r : ref) (o : object) : ST unit :=
  fun s => (Ok tt, overwrite s r o).

Definition load_atoms (r : ref) : ST Atoms :=
  fun s => match nth_error s r with
           | Some (ObjAtoms g) => (Ok g, s)
           | _ => (Err TypeError, s)
           end.

Definition load_float1 (r : ref) : ST vector :=
  fun s => match nth_error s r with
           | Some (ObjFloat1 v) => (Ok v, s)
           | _ => (Err TypeError, s)
           end.

Definition load_float2 (r : ref) : ST matrix :=
  fun s => match nth_error s r with
           | Some (ObjFloat2 m) => (Ok m, s)
           | _ => (Err TypeError, s)
           end.

Definition load_int1 (r : ref) : ST (list Z) :=
  fun s => match nth_error s r with
           | Some (ObjInt1 a) => (Ok a, s)
           | _ => (Err TypeError, s)
           end.

Definition load_count1 (r : ref) : ST (list nat) :=
  fun s => match nth_error s r with
           | Some (ObjCount1 a) => (Ok a, s)
           | _ => (Err TypeError, s)
           end.

Definition load_bool1 (r : ref) : ST (list bool) :=
  fun s => match nth_error s r with
           | Some (ObjBool1 a) => (Ok a, s)
           | _ => (Err TypeError, s)
           end.

(** A list comprehension. *)
Fixpoint st_mapM {A B : Type} (f : A -> ST B) (l : list A) : ST (list B) :=
  match l with
  | [] => st_ret []
  | a :: l' =>
      b <~ f a ;;
      bs <~ st_mapM f l' ;;
      st_ret (b :: bs)
  end.

(** *** NumPy operations on references: each result is a new array *)

(** [geom.get_atomic_numbers()] returns a copy. *)
Definition st_get_atomic_numbers (geom : ref) : ST ref :=
  g <~ load_atoms geom ;;
  alloc (ObjInt1 (get_atomic_numbers g)).

(** [a == species] *)
Definition st_eq_scalar (a : ref) (species : Z) : ST ref :=
  zs <~ load_int1 a ;;
  alloc (ObjBool1 (map (fun z => (z =? species)%Z) zs)).

(** [np.sum(mask)] is a scalar. *)
Definition st_sum_bool (mask : ref) : ST nat :=
  bs <~ load_bool1 mask ;;
  st_ret (length (filter (fun b => b) bs)).

Definition st_len (geom : ref) : ST nat :=
  g <~ load_atoms geom ;;
  st_ret (len g).

Definition st_broadcast1 (f : R -> R -> R) (a b : ref) : ST ref :=
  u <~ load_float1 a ;;
  v <~ load_float1 b ;;
  w <~ st_lift (np_broadcast1 f u v) ;;
  alloc (ObjFloat1 w).

Definition st_broadcast2 (f : R -> R -> R) (a b : ref) : ST ref :=
  A <~ load_float2 a ;;
  B <~ load_float2 b ;;
  C <~ st_lift (np_broadcast2 f A B) ;;
  alloc (ObjFloat2 C).

Definition st_sqrt (a : ref) : ST ref :=
  ns <~ load_count1 a ;;
  alloc (ObjFloat1 (np_sqrt ns)).

Definition st_scalar_mul_vec (c : R) (a : ref) : ST ref :=
  v <~ load_float1 a ;;
  alloc (ObjFloat1 (scalar_mul_vec c v)).

Definition st_scalar_mul_mat (c : R) (a : ref) : ST ref :=
  A <~ load_float2 a ;;
  alloc (ObjFloat2 (scalar_mul_mat c A)).

Definition st_newaxis_col (a : ref) : ST ref :=
  v <~ load_float1 a ;;
  alloc (ObjFloat2 (newaxis_col v)).

Definition st_opt_mat_div_scalar (a : option ref) (c : option R) : ST ref :=
  match a, c with
  | Some a, Some c =>
      A <~ load_float2 a ;;
      alloc (ObjFloat2 (mat_div_scalar A c))
  | _, _ => st_lift (Err TypeError)
  end.

Definition st_opt_vec_div_scalar (a : ref) (c : option R) : ST ref :=
  v <~ load_float1 a ;;
  w <~ st_lift (opt_vec_div_scalar v c) ;;
  alloc (ObjFloat1 w).

Definition st_flatten (a : ref) : ST ref :=
  A <~ load_float2 a ;;
  alloc (ObjFloat1 (flatten A)).

Definition st_vstack (a b : ref) : ST ref :=
  A <~ load_float2 a ;;
  B <~ load_float2 b ;;
  C <~ st_lift (np_vstack A B) ;;
  alloc (ObjFloat2 C).

Definition st_concatenate (a b : ref) : ST ref :=
  u <~ load_float1 a ;;
  v <~ load_float1 b ;;
  alloc (ObjFloat1 (np_concatenate u v)).

Definition st_transpose (a : ref) : ST ref :=
  A <~ load_float2 a ;;
  alloc (ObjFloat2 (transpose A)).

Definition st_matmul (a b : ref) : ST ref :=
  A <~ load_float2 a ;;
  B <~ load_float2 b ;;
  C <~ st_lift (np_matmul A B) ;;
  alloc (ObjFloat2 C).

Definition st_matvec (a b : ref) : ST ref :=
  A <~ load_float2 a ;;
  y <~ load_float1 b ;;
  z <~ st_lift (np_matvec A y) ;;
  alloc (ObjFloat1 z).

(** The loop of [_get_energy_baseline]. *)
Fixpoint st_baseline_loop (geom : ref) (items : table) (e0 : R) : ST R :=
  match items with
  | [] => st_ret e0
  | (species, e0_value) :: items' =>
      nums <~ st_get_atomic_numbers geom ;;
      mask <~ st_eq_scalar nums species ;;
      c <~ st_sum_bool mask ;;
      st_baseline_loop geom items' (e0 + e0_value * INR c)
  end.

Definition st_get_energy_baseline (geom : ref) (atom_contributions : table)
  : ST R :=
  st_baseline_loop geom atom_contributions 0.

Section FitStore.

Variable lstsq : matrix -> vector -> option R -> vector.

Definition st_linalg_lstsq (a b : ref) (rcond : option R) : ST ref :=
  K <~ load_float2 a ;;
  y <~ load_float1 b ;;
  w <~ st_lift (np_linalg_lstsq lstsq K y rcond) ;;
  alloc (ObjFloat1 w).

(** Lines 229-231. *)
Definition st_solve (kernel_sparse K_NM Y : ref) (rcond : option R)
  : ST ref :=
  K_NM_T <~ st_transpose K_NM ;;
  KtK <~ st_matmul K_NM_T K_NM ;;
  K <~ st_broadcast2 Rplus kernel_sparse KtK ;;
  K_NM_T' <~ st_transpose K_NM ;;
  b <~ st_matvec K_NM_T' Y ;;
  st_linalg_lstsq K b rcond.

Definition st_fit_gap_simple
    (geoms : list ref) (kernel_sparse energies kernel_energies_sparse : ref)
    (energy_regularizer_peratom : R) (energy_atom_contributions : table)
    (forces kernel_gradients_sparse : option ref)
    (force_regularizer rcond : option R) : ST ref :=
  e0s <~ st_mapM (fun geom =>
                    st_get_energy_baseline geom energy_atom_contributions)
                 geoms ;;
  e0_all <~ alloc (ObjFloat1 e0s) ;;
  energies_shifted <~ st_broadcast1 Rminus energies e0_all ;;
  ns <~ st_mapM st_len geoms ;;
  natoms_list <~ alloc (ObjCount1 ns) ;;
  roots <~ st_sqrt natoms_list ;;
  energy_regularizer <~ st_scalar_mul_vec energy_regularizer_peratom roots ;;
  column <~ st_newaxis_col energy_regularizer ;;
  kernel_energies_norm <~
    st_broadcast2 Rdiv kernel_energies_sparse column ;;
  match forces with
  | Some forces =>
      gradients <~ st_scalar_mul_mat (-1) forces ;;
      kernel_gradients_norm <~
        st_opt_mat_div_scalar kernel_gradients_sparse force_regularizer ;;
      K_NM <~ st_vstack kernel_energies_norm kernel_gradients_norm ;;
      Y_e <~ st_broadcast1 Rdiv energies_shifted energy_regularizer ;;
      flat <~ st_flatten gradients ;;
      Y_g <~ st_opt_vec_div_scalar flat force_regularizer ;;
      Y <~ st_concatenate Y_e Y_g ;;
      st_solve kernel_sparse K_NM Y rcond
  | None =>
      let K_NM := kernel_energies_norm in
      Y <~ st_broadcast1 Rdiv energies_shifted energy_regularizer ;;
      st_solve kernel_sparse K_NM Y rcond
  end.

End FitStore.

(** ** [calculate_representation] and [calculate_and_sparsify]

    Both act on the structures themselves: [geom.wrap] moves the atoms of
    a structure in place. *)

Section Representations.

(** The representation class, its feature vectors, the CUR filter and the
    wrapping of a structure belong to collaborators. *)
Context {RepParameters Representation Features : Type}.
Context {NSparse Compressor SparsePoints : Type}.

(** [geom.wrap(eps=1E-10)], as a map on the value of the structure. *)
Variable wrap : Atoms -> Atoms.

(** [rep.transform(geoms)] *)
Variable transform : Representation -> list Atoms -> Features.

(** [utils.CURFilter(rep, n_sparse, act_on=..)] *)
Variable CURFilter : Representation -> NSparse -> string -> Compressor.

(** [compressor.fit_transform(soaps)] *)
Variable fit_transform : Compressor -> Features -> SparsePoints.

Definition st_wrap (geom : ref) : ST unit :=
  g <~ load_atoms geom ;;
  assign geom (ObjAtoms (wrap g)).

(** A [for] loop run for its effects. *)
Fixpoint st_for {A : Type} (f : A -> ST unit) (l : list A) : ST unit :=
  match l with
  | [] => st_ret tt
  | a :: l' =>
      _ <~ f a ;;
      st_for f l'
  end.

Definition st_transform (rep : Representation) (geoms : list ref)
  : ST Features :=
  gs <~ st_mapM load_atoms geoms ;;
  st_ret (transform rep gs).

Definition calculate_representation
    (geoms : list ref) (rep_parameters : RepParameters)
    (rep_class : RepParameters -> Representation) (auto_wrap : bool)
  : ST (Representation * Features) :=
  let rep := rep_class rep_parameters in
  _ <~ (if auto_wrap then st_for st_wrap geoms else st_ret tt) ;;
  soaps <~ st_transform rep geoms ;;
  st_ret (rep, soaps).

(** [utils.dump_obj(path, obj)], the path relative to [WORKDIR]. *)
Inductive dump : Type :=
| DumpObj (path : string) (obj : SparsePoints).

(** The value returned and the files written. *)
Definition calculate_and_sparsify
    (geoms : list ref) (rep_parameters : RepParameters) (n_sparse : NSparse)
    (rep_class : RepParameters -> Representation) (auto_wrap : bool)
  : ST ((Representation * Features * SparsePoints) * list dump) :=
  let rep := rep_class rep_parameters in
  _ <~ (if auto_wrap then st_for st_wrap geoms else st_ret tt) ;;
  soaps <~ st_transform rep geoms ;;
  let compressor := CURFilter rep n_sparse "sample per species"%string in
  let sparse_points_cur := fit_transform compressor soaps in
  st_ret ((rep, soaps, sparse_points_cur),
          [DumpObj "sparsepoints.json"%string sparse_points_cur]).

End Representations.

(** ** The reference data script
       [scripts/generate_spherical_harmonics_ref_data.py] *)

(** [range(a, b)] *)
Definition py_range (a b : Z) : list Z :=
  map (fun i => (a + Z.of_nat i)%Z) (seq 0 (Z.to_nat (b - a))).

(** [[x] * n] *)
Definition py_repeat {A : Type} (x : A) (n : Z) : list A :=
  repeat x (Z.to_nat n).

Definition get_ascending_angular_lists (max_angular_l : Z)
  : list Z * list Z :=
  fold_left
    (fun '(ascending_angular_m_list, ascending_angular_l_list) angular_l =>
       (ascending_angular_m_list
          ++ py_range (- angular_l) (angular_l + 1),
        ascending_angular_l_list
          ++ py_repeat angular_l (angular_l * 2 + 1)))
    (py_range 0 (max_angular_l + 1))
    ([], []).

Section ReferenceData.

(** [scipy.special.sph_harm(m, l, phi, theta)], a complex number given by
    its real and imaginary parts; [np.arccos] and [np.arctan2]. *)
Variable sph_harm : Z -> Z -> R -> R -> R * R.
Variable arccos : R -> R.
Variable arctan2 : R -> R -> R.

(** [np.real(lpmn(m, n, z))] *)
Context {Legendre : Type}.
Variable lpmn_real : Z -> Z -> R -> Legendre.

(** A row of the [(nb_unit_vectors, 3)] data. *)
Definition unit_vector : Type := (R * R * R)%type.

(** The harmonics of one unit vector: the body of the loop of
    [dump_reference_json]. *)
Definition reference_harmonics (max_angular_l : Z) (v : unit_vector)
  : list R :=
  let '(v0, v1, v2) := v in
  let theta := arccos v2 in
  let phi := arctan2 v1 v0 in
  fold_left
    (fun harmonics angular_l =>
       let harmonics :=
         fold_left
           (fun harmonics angular_m =>
              harmonics
                ++ [sqrt 2
                    * snd (sph_harm (Z.abs angular_m) angular_l phi theta)])
           (py_range (- angular_l) 0) harmonics in
       let harmonics :=
         harmonics ++ [fst (sph_harm 0 angular_l phi theta)] in
       fold_left
         (fun harmonics angular_m =>
            harmonics
              ++ [sqrt 2 * fst (sph_harm angular_m angular_l phi theta)])
         (py_range 1 (angular_l + 1)) harmonics)
    (py_range 0 (max_angular_l + 1))
    [].

Record harmonics_record : Type := mk_harmonics_record {
  hr_max_angular_l : Z;
  hr_unit_vector : unit_vector;
  hr_harmonics : list R
}.

(** The records dumped and the number printed, from the unit vectors
    loaded. *)
Definition dump_reference_json (unit_vectors : list unit_vector)
  : list harmonics_record * nat :=
  let max_angular_l := 31%Z in
  let data :=
    fold_left
      (fun data unit_vector =>
         data ++ [mk_harmonics_record
                    max_angular_l unit_vector
                    (reference_harmonics max_angular_l unit_vector)])
      unit_vectors [] in
  (data, length data).

(** The Legendre values of one direction: the body of the loop of
    [dump_lpmn_reference_json]. *)
Definition reference_lpmn (max_angular_l : Z) (direction : unit_vector)
  : list Legendre :=
  let '(_, _, z) := direction in
  fold_left
    (fun lpmn_results angular_l =>
       fold_left
         (fun lpmn_results angular_m =>
            lpmn_results ++ [lpmn_real angular_m angular_l z])
         (py_range (- angular_l) (angular_l + 1)) lpmn_results)
    (py_range 0 (max_angular_l + 1))
    [].

End ReferenceData.

(** ** [setup.py]: the author and the requirements

    A Python string is the list of its characters; a text file is read as
    the list of its lines, each with its line end. *)

Definition str : Type := list Ascii.ascii.

Definition newline : Ascii.ascii := Ascii.ascii_of_nat 10.
Definition hash : Ascii.ascii := Ascii.ascii_of_nat 35.
Definition comma_space : str := [Ascii.ascii_of_nat 44; Ascii.ascii_of_nat 32].

(** [sep.join(parts)] *)
Fixpoint str_join (sep : str) (parts : list str) : str :=
  match parts with
  | [] => []
  | [x] => x
  | x :: rest => x ++ sep ++ str_join sep rest
  end.

(** [s.replace(c, "")] for a single character [c]. *)
Definition str_remove (c : Ascii.ascii) (s : str) : str :=
  filter (fun x => negb (Ascii.eqb x c)) s.

(** [c in s] for a single character [c]. *)
Definition str_contains (c : Ascii.ascii) (s : str) : bool :=
  existsb (fun x => Ascii.eqb x c) s.

Fixpoint drop_while {A : Type} (p : A -> bool) (l : list A) : list A :=
  match l with
  | [] => []
  | x :: l' => if p x then drop_while p l' else l
  end.

Section Setup.

(** [str.isspace] on a character. *)
Variable is_space : Ascii.ascii -> bool.

(** [s.strip()] *)
Definition str_strip (s : str) : str :=
  rev (drop_while is_space (rev (drop_while is_space s))).

(** [", ".join(fp.readlines()).replace("\n", "")] *)
Definition author (lines : list str) : str :=
  str_remove newline (str_join comma_space lines).

(** [list(filter(lambda x: "#" not in x, (line.strip() for line in fp)))] *)
Definition requirements (lines : list str) : list str :=
  filter (fun x => negb (str_contains hash x)) (map str_strip lines).

End Setup.

(** * Vocabulary of the properties *)

Definition sum_list (l : list R) : R := fold_right Rplus 0 l.

(** The value the table assigns to one atom: absent species count zero. *)
Definition atom_contribution (t : table) (species : Z) : R :=
  match table_get t species with
  | Some v => v
  | None => 0
  end.

(** One item of the table, weighted by the number of atoms of its species. *)
Definition term_of (a : list Z) (kv : Z * R) : R :=
  snd kv * INR (count_species a (fst kv)).

(** ** The design matrix and the targets, as the specification words them *)

(** [energy_regularizer_peratom * sqrt(atom_count)] of one structure. *)
Definition energy_scale (energy_regularizer_peratom : R) (geom : Atoms) : R :=
  energy_regularizer_peratom * sqrt (INR (len geom)).

Definition spec_energy_rows (geoms : list Atoms) (K_NM_energy : matrix)
           (reg : R) : list (list R) :=
  zip_with (fun row geom => map (fun x => x / energy_scale reg geom) row)
           (rows K_NM_energy) geoms.

Definition spec_energy_targets (geoms : list Atoms) (energies : vector)
           (reg : R) (t : table) : vector :=
  zip_with (fun e geom =>
              (e - _get_energy_baseline geom t) / energy_scale reg geom)
           energies geoms.

Definition spec_gradient_rows (K_NM_grad : matrix) (force_reg : R)
  : list (list R) :=
  map (map (fun x => x / force_reg)) (rows K_NM_grad).

Definition spec_gradient_targets (forces : matrix) (force_reg : R) : vector :=
  map (fun f => (- f) / force_reg) (flatten forces).

(** ** The normal equations *)

Definition sum_range (n : nat) (f : nat -> R) : R :=
  sum_list (map f (seq 0 n)).

(** [K = K_MM + K_NM^T K_NM], entry by entry. *)
Definition normal_matrix (K_MM K_NM : matrix) : matrix :=
  let M := ncols K_NM in
  mk_matrix M
    (map (fun i =>
            map (fun j =>
                   entry K_MM i j
                   + sum_range (nrows K_NM)
                       (fun k => entry K_NM k i * entry K_NM k j))
                (seq 0 M))
         (seq 0 M)).

(** [K_NM^T Y], entry by entry. *)
Definition normal_rhs (K_NM : matrix) (Y : vector) : vector :=
  map (fun i =>
         sum_range (nrows K_NM) (fun k => entry K_NM k i * nth k Y 0))
      (seq 0 (ncols K_NM)).

(** ** The solver's contract *)

(** [|K x - b|^2] *)
Definition residual_sq (K : matrix) (x b : vector) : R :=
  sum_list (zip_with (fun row bi => (dot row x - bi) * (dot row x - bi))
                     (rows K) b).

Definition least_squares_solution (K : matrix) (b x : vector) : Prop :=
  length x = ncols K
  /\ forall x', length x' = ncols K -> residual_sq K x b <= residual_sq K x' b.






(** A solver for 1x1 systems. *)
Definition solve_1x1 (K : matrix) (b : vector) (rcond : option R) : vector :=
  match rows K, b with
  | [[a]], [y] => [y / a]
  | _, _ => []
  end.

(** ** Example data *)

(** Two structures, H2 and H2O, two sparse points. *)
Definition ex_geoms : list Atoms :=
  [mk_Atoms [1; 1]%Z; mk_Atoms [8; 1; 1]%Z].
Definition ex_energies : vector := [3; 5].
Definition ex_K_NM_energy : matrix := mk_matrix 2 [[1; 2]; [3; 4]].
Definition ex_table : table := [(1%Z, 2); (8%Z, 5)].

(** ** Frame: computations that only allocate *)

(** [m] leaves every object of the store it starts from as it was and at
    most appends new ones, whether it returns or raises. *)
Definition allocates_only {A : Type} (m : ST A) : Prop :=
  forall s : store, exists fresh : list object, snd (m s) = s ++ fresh.

(** ** The store computation against the functional model *)

(** The outcome of an operation that allocates its result when it has
    one. *)
Definition alloc_result {A : Type} (mk : A -> object) (r : result A)
           (s : store) : result ref * store :=
  match r with
  | Ok w => (Ok (length s), s ++ [mk w])
  | Err e => (Err e, s)
  end.

(** An optional argument and the array it refers to. *)
Definition opt_refers (s : store) (a : option ref) (A : option matrix)
  : Prop :=
  match a, A with
  | Some r, Some m => nth_error s r = Some (ObjFloat2 m)
  | None, None => True
  | _, _ => False
  end.

(** References to the structures of a list. *)
Definition refer_to (s : store) (refs : list ref) (geoms : list Atoms)
  : Prop :=
  Forall2 (fun r g => nth_error s r = Some (ObjAtoms g)) refs geoms.

(** The outcome of the store computation against the value computed by the
    functional model: the same exception, or a reference to the same
    weights. *)
Definition agrees (out : result ref * store) (r : result vector) : Prop :=
  match r with
  | Ok w => exists rw : ref,
      fst out = Ok rw /\ nth_error (snd out) rw = Some (ObjFloat1 w)
  | Err e => fst out = Err e
  end.

(** ** More vocabulary *)


(** The arrays written by [np.save], with their names, in order. *)
Definition saved_arrays {Features SparsePoints : Type}
           (log : list (@event Features SparsePoints))
  : list (string * ndarray) :=
  flat_map (fun e => match e with
                     | NpSave name a => [(name, a)]
                     | _ => []
                     end) log.

(** The number of evaluations of the kernel. *)
Definition evaluations {Features SparsePoints : Type}
           (log : list (@event Features SparsePoints)) : nat :=
  length (filter (fun e => match e with
                           | NpSave _ _ => false
                           | _ => true
                           end) log).

Definition energy_kernel_of {Kernel : Type} (k : @kernels Kernel) : ndarray :=
  match k with
  | Tuple3 _ _ kf => kf
  | Tuple4 _ _ kf _ => kf
  end.

(** ** The real spherical harmonic *)

(** [sqrt 2 Im Y_l^|m|] for [m < 0], [Re Y_l^0] for [m = 0] and
    [sqrt 2 Re Y_l^m] for [m > 0]. *)
Definition real_harmonic (sph_harm : Z -> Z -> R -> R -> R * R)
           (phi theta : R) (m l : Z) : R :=
  if (m <? 0)%Z then sqrt 2 * snd (sph_harm (Z.abs m) l phi theta)
  else if (m =? 0)%Z then fst (sph_harm 0%Z l phi theta)
  else sqrt 2 * fst (sph_harm m l phi theta).

(** ** The ascending angular lists, block by block *)

(** The blocks of the two lists, one for each [l]. *)
Definition m_block (l : Z) : list Z := py_range (- l) (l + 1).
Definition l_block (l : Z) : list Z := py_repeat l (l * 2 + 1).

(** ** More example data *)

(** [AUTHORS.txt] with two names; a requirements file with a plain line,
    a commented line and a blank line. *)
Definition ex_names : list str :=
  [list_ascii_of_string "Ada"; list_ascii_of_string "Kurt"].

Definition ex_is_space (c : Ascii.ascii) : bool :=
  Ascii.eqb c (Ascii.ascii_of_nat 32) || Ascii.eqb c newline.

Definition ex_requirement_lines : list str :=
  [list_ascii_of_string "numpy" ++ [newline];
   list_ascii_of_string "scipy # optional" ++ [newline];
   [newline]].

(** * Properties *)

(** ** Sums *)

Lemma sum_list_map_plus {A : Type} (f g : A -> R) (l : list A) :
  sum_list (map (fun a => f a + g a) l)
  = sum_list (map f l) + sum_list (map g l).
Proof.
  induction l as [|a l IH]; simpl.
  - lra.
  - rewrite IH. lra.
Qed.

Lemma sum_list_map_zero {A : Type} (f : A -> R) (l : list A) :
  (forall a, In a l -> f a = 0) -> sum_list (map f l) = 0.
Proof.
  induction l as [|a l IH]; simpl; intros H.
  - reflexivity.
  - rewrite (H a) by now left.
    rewrite IH by (intros; apply H; now right). lra.
Qed.

(** ** The baseline as a sum over the table *)

Lemma baseline_fold_acc (a : list Z) (t : table) (acc : R) :
  fold_left
    (fun e0 '(species, e0_value) =>
       e0 + e0_value * INR (count_species a species)) t acc
  = acc + sum_list (map (term_of a) t).
Proof.
  revert acc. induction t as [|[k v] t IH]; intros acc; simpl.
  - lra.
  - rewrite IH. unfold term_of at 2. simpl. lra.
Qed.

Lemma baseline_as_sum (geom : Atoms) (t : table) :
  _get_energy_baseline geom t = sum_list (map (term_of (numbers geom)) t).
Proof.
  unfold _get_energy_baseline, get_atomic_numbers.
  rewrite baseline_fold_acc. lra.
Qed.

Lemma count_species_cons (z : Z) (a : list Z) (k : Z) :
  count_species (z :: a) k
  = ((if (z =? k)%Z then 1 else 0) + count_species a k)%nat.
Proof.
  unfold count_species. simpl. destruct (z =? k)%Z; reflexivity.
Qed.

(** With distinct keys exactly one item of the table answers to a species. *)
Lemma single_atom_sum (t : table) (z : Z) :
  wf_table t ->
  sum_list (map (fun kv => snd kv * INR (if (z =? fst kv)%Z then 1 else 0)) t)
  = atom_contribution t z.
Proof.
  unfold wf_table, atom_contribution.
  induction t as [|[k v] t IH]; simpl; intros Hnd.
  - reflexivity.
  - inversion Hnd as [|? ? Hnotin Hnd']; subst.
    rewrite Z.eqb_sym.
    destruct (Z.eqb_spec k z) as [->|Hne].
    + rewrite sum_list_map_zero.
      * simpl. lra.
      * intros [k' v'] Hin. simpl.
        destruct (Z.eqb_spec z k') as [->|_]; [|simpl; lra].
        exfalso. apply Hnotin. apply in_map_iff. now exists (k', v').
    + rewrite IH by assumption. simpl. lra.
Qed.

Lemma table_sum_is_atom_sum (t : table) (a : list Z) :
  wf_table t ->
  sum_list (map (term_of a) t) = sum_list (map (atom_contribution t) a).
Proof.
  intros Hwf. induction a as [|z a IH]; simpl.
  - apply sum_list_map_zero. intros kv _. unfold term_of, count_species.
    simpl. lra.
  - rewrite <- IH, <- (single_atom_sum t z Hwf), <- sum_list_map_plus.
    f_equal. apply map_ext. intros [k v]. unfold term_of. simpl.
    rewrite count_species_cons, plus_INR. lra.
Qed.

Lemma count_species_perm (a b : list Z) (k : Z) :
  Permutation a b -> count_species a k = count_species b k.
Proof.
  induction 1 as [|z a b _ IH|y z a|a b c _ IH1 _ IH2].
  - reflexivity.
  - rewrite !count_species_cons. now rewrite IH.
  - rewrite !count_species_cons. lia.
  - congruence.
Qed.

(** C4: the baseline is the sum, over the atoms of the structure, of the
    value the table holds for the atom's species; an atom whose species is
    not in the table adds zero.  The function is total: no species makes it
    fail. *)
Theorem baseline_sum_over_atoms (geom : Atoms) (atom_contributions : table) :
  wf_table atom_contributions ->
  _get_energy_baseline geom atom_contributions
  = sum_list (map (atom_contribution atom_contributions)
                  (get_atomic_numbers geom))
  /\ (forall z, table_get atom_contributions z = None ->
                atom_contribution atom_contributions z = 0).
Proof.
  intros Hwf. split.
  - rewrite baseline_as_sum. now apply table_sum_is_atom_sum.
  - intros z Hz. unfold atom_contribution. now rewrite Hz.
Qed.

(** Hydrogen and oxygen in the table; the carbon atom of the structure is
    not, and adds nothing. *)
Lemma baseline_sum_over_atoms_witness :
  _get_energy_baseline (mk_Atoms [1; 6; 8; 1]%Z) [(1%Z, 2); (8%Z, 5)]
  = sum_list (map (atom_contribution [(1%Z, 2); (8%Z, 5)]) [1; 6; 8; 1]%Z)
  /\ (forall z, table_get [(1%Z, 2); (8%Z, 5)] z = None ->
                atom_contribution [(1%Z, 2); (8%Z, 5)] z = 0).
Proof.
  apply (baseline_sum_over_atoms (mk_Atoms [1; 6; 8; 1]%Z)
                                 [(1%Z, 2); (8%Z, 5)]).
  unfold wf_table. simpl.
  repeat constructor; simpl; intuition discriminate.
Defined.

Lemma baseline_zero_table (geom : Atoms) (t : table) :
  Forall (fun kv => snd kv = 0) t -> _get_energy_baseline geom t = 0.
Proof.
  intros Hz. rewrite baseline_as_sum. apply sum_list_map_zero.
  intros kv Hin. unfold term_of.
  rewrite Forall_forall in Hz. rewrite (Hz kv Hin). lra.
Qed.

Lemma baseline_single_species (t : table) (s : Z) (b : R) (n : nat) :
  wf_table t ->
  table_get t s = Some b ->
  _get_energy_baseline (mk_Atoms (repeat s n)) t = b * INR n.
Proof.
  intros Hwf Hget.
  rewrite baseline_as_sum, table_sum_is_atom_sum by assumption.
  simpl. induction n as [|n IH].
  - simpl. lra.
  - change (repeat s (S n)) with (s :: repeat s n).
    simpl map. simpl sum_list. rewrite IH, S_INR.
    unfold atom_contribution. rewrite Hget. lra.
Qed.

(** C7: an all-zero table gives baseline zero for every structure; a
    structure of [n] atoms of one species with table value [b] has baseline
    [b * n], so doubling the atom count doubles the baseline. *)
Theorem baseline_linear_in_composition :
  (forall (geom : Atoms) (t : table),
      Forall (fun kv => snd kv = 0) t -> _get_energy_baseline geom t = 0)
  /\ (forall (t : table) (s : Z) (b : R) (n : nat),
         wf_table t ->
         table_get t s = Some b ->
         _get_energy_baseline (mk_Atoms (repeat s n)) t = b * INR n
         /\ _get_energy_baseline (mk_Atoms (repeat s (2 * n))) t
            = 2 * _get_energy_baseline (mk_Atoms (repeat s n)) t).
Proof.
  split.
  - exact baseline_zero_table.
  - intros t s b n Hwf Hget. split.
    + now apply baseline_single_species.
    + rewrite !(baseline_single_species t s b) by assumption.
      rewrite mult_INR. simpl. lra.
Qed.

Lemma baseline_linear_in_composition_witness :
  _get_energy_baseline (mk_Atoms [1; 8]%Z) [(1%Z, 0); (8%Z, 0)] = 0
  /\ _get_energy_baseline (mk_Atoms (repeat 1%Z 2)) [(1%Z, 3); (8%Z, 7)]
     = 3 * INR 2
  /\ _get_energy_baseline (mk_Atoms (repeat 1%Z (2 * 2))) [(1%Z, 3); (8%Z, 7)]
     = 2 * _get_energy_baseline (mk_Atoms (repeat 1%Z 2))
                                [(1%Z, 3); (8%Z, 7)].
Proof.
  split.
  - apply (proj1 baseline_linear_in_composition).
    repeat constructor.
  - apply (proj2 baseline_linear_in_composition
                 [(1%Z, 3); (8%Z, 7)] 1%Z 3 2%nat).
    + unfold wf_table. simpl.
      repeat constructor; simpl; intuition discriminate.
    + reflexivity.
Defined.

(** C10: two structures whose atomic numbers are permutations of each other
    get the same baseline from every table. *)
Theorem baseline_permutation_invariant (g1 g2 : Atoms) (t : table) :
  Permutation (get_atomic_numbers g1) (get_atomic_numbers g2) ->
  _get_energy_baseline g1 t = _get_energy_baseline g2 t.
Proof.
  unfold get_atomic_numbers. intros Hperm. rewrite !baseline_as_sum. f_equal.
  apply map_ext. intros [k v]. unfold term_of. simpl.
  now rewrite (count_species_perm _ _ k Hperm).
Qed.

Lemma baseline_permutation_invariant_witness :
  _get_energy_baseline (mk_Atoms [1; 8; 1]%Z) [(1%Z, 2); (8%Z, 5)]
  = _get_energy_baseline (mk_Atoms [8; 1; 1]%Z) [(1%Z, 2); (8%Z, 5)].
Proof.
  apply (baseline_permutation_invariant
           (mk_Atoms [1; 8; 1]%Z) (mk_Atoms [8; 1; 1]%Z)
           [(1%Z, 2); (8%Z, 5)]).
  simpl. apply perm_swap.
Defined.

(** ** Broadcasting on conforming shapes *)

Lemma bdim_same (n : nat) : bdim n n = Some n.
Proof. unfold bdim. now rewrite Nat.eqb_refl. Qed.

Lemma bdim_one_r (n : nat) : bdim n 1 = Some n.
Proof.
  unfold bdim. destruct (Nat.eqb_spec n 1) as [->|_]; reflexivity.
Qed.

Lemma bmap2_same_length {A B C : Type} (f : A -> B -> C) xs ys :
  length xs = length ys -> bmap2 f xs ys = zip_with f xs ys.
Proof.
  intros H. unfold bmap2. rewrite H. now rewrite Nat.eqb_refl.
Qed.

Lemma bmap2_scalar_r {A B C : Type} (f : A -> B -> C) xs (y : B) :
  bmap2 f xs [y] = map (fun x => f x y) xs.
Proof.
  unfold bmap2. destruct xs as [|x [|x' xs]]; reflexivity.
Qed.

Lemma zip_with_length {A B C : Type} (f : A -> B -> C) xs ys :
  length xs = length ys -> length (zip_with f xs ys) = length xs.
Proof.
  revert ys. induction xs as [|x xs IH]; intros [|y ys]; simpl; intros H;
    try reflexivity; try discriminate.
  f_equal. apply IH. now injection H.
Qed.

Lemma zip_with_map_r {A B B' C : Type} (f : A -> B -> C) (g : B' -> B) xs ys :
  zip_with f xs (map g ys) = zip_with (fun x y => f x (g y)) xs ys.
Proof.
  revert ys. induction xs as [|x xs IH]; intros [|y ys]; simpl;
    try reflexivity.
  now rewrite IH.
Qed.

Lemma zip_with_zip_with_l {A B C D : Type}
      (f : C -> B -> D) (g : A -> B -> C) xs ys :
  zip_with f (zip_with g xs ys) ys = zip_with (fun x y => f (g x y) y) xs ys.
Proof.
  revert ys. induction xs as [|x xs IH]; intros [|y ys]; simpl;
    try reflexivity.
  now rewrite IH.
Qed.

Lemma zip_with_ext {A B C : Type} (f g : A -> B -> C) xs ys :
  (forall x y, f x y = g x y) -> zip_with f xs ys = zip_with g xs ys.
Proof.
  intros H. revert ys. induction xs as [|x xs IH]; intros [|y ys]; simpl;
    try reflexivity.
  now rewrite H, IH.
Qed.

(** ** The design matrix and the targets *)

Lemma energy_block (geoms : list Atoms) (energies : vector) (kes : matrix)
      (reg : R) (t : table) :
  length energies = length geoms ->
  nrows kes = length geoms ->
  let e0_all := map (fun geom => _get_energy_baseline geom t) geoms in
  let energy_regularizer := scalar_mul_vec reg (np_sqrt (map len geoms)) in
  np_broadcast1 Rminus energies e0_all
  = Ok (zip_with Rminus energies e0_all)
  /\ np_broadcast2 Rdiv kes (newaxis_col energy_regularizer)
     = Ok (mk_matrix (ncols kes) (spec_energy_rows geoms kes reg))
  /\ np_broadcast1 Rdiv (zip_with Rminus energies e0_all) energy_regularizer
     = Ok (spec_energy_targets geoms energies reg t).
Proof.
  intros He Hk e0_all energy_regularizer.
  assert (Hreg : energy_regularizer = map (energy_scale reg) geoms).
  { unfold energy_regularizer, scalar_mul_vec, np_sqrt.
    now rewrite !map_map. }
  split; [|split].
  - unfold np_broadcast1, e0_all. rewrite length_map, He, bdim_same.
    rewrite bmap2_same_length by now rewrite length_map.
    reflexivity.
  - unfold np_broadcast2, newaxis_col, nrows. simpl.
    rewrite Hreg, !length_map. unfold nrows in Hk.
    rewrite Hk, bdim_same, bdim_one_r.
    rewrite bmap2_same_length by now rewrite !length_map.
    do 2 f_equal. unfold spec_energy_rows.
    rewrite !zip_with_map_r. apply zip_with_ext.
    intros row geom. apply bmap2_scalar_r.
  - unfold np_broadcast1.
    rewrite zip_with_length by (unfold e0_all; now rewrite length_map).
    rewrite Hreg, length_map, He, bdim_same.
    rewrite bmap2_same_length
      by (rewrite zip_with_length;
          unfold e0_all; now rewrite !length_map).
    f_equal. unfold e0_all, spec_energy_targets.
    rewrite !zip_with_map_r.
    now rewrite (zip_with_zip_with_l
                   (fun x y => x / energy_scale reg y)
                   (fun x y => x - _get_energy_baseline y t)).
Qed.

(** C1: on conforming shapes the energy block has, for structure [i], the
    row [K_NM_energy[i,:]] and the shifted energy, both divided by
    [energy_regularizer_peratom * sqrt(atom_count[i])]; with forces the
    gradient block [K_NM_grad / force_reg] with targets
    [(-forces).flatten() / force_reg] is appended below the energy block. *)
Theorem design_assembly (geoms : list Atoms) (energies : vector)
        (kernel_energies_sparse : matrix) (reg : R) (t : table) :
  length energies = length geoms ->
  nrows kernel_energies_sparse = length geoms ->
  (forall kernel_gradients_sparse force_regularizer,
      fit_gap_simple_design geoms energies kernel_energies_sparse reg t
        None kernel_gradients_sparse force_regularizer
      = Ok (mk_matrix (ncols kernel_energies_sparse)
              (spec_energy_rows geoms kernel_energies_sparse reg),
            spec_energy_targets geoms energies reg t))
  /\ (forall forces kernel_gradients_sparse force_regularizer,
         ncols kernel_gradients_sparse = ncols kernel_energies_sparse ->
         fit_gap_simple_design geoms energies kernel_energies_sparse reg t
           (Some forces) (Some kernel_gradients_sparse)
           (Some force_regularizer)
         = Ok (mk_matrix (ncols kernel_energies_sparse)
                 (spec_energy_rows geoms kernel_energies_sparse reg
                  ++ spec_gradient_rows kernel_gradients_sparse
                                        force_regularizer),
               spec_energy_targets geoms energies reg t
               ++ spec_gradient_targets forces force_regularizer)).
Proof.
  intros He Hk.
  destruct (energy_block geoms energies kernel_energies_sparse reg t He Hk)
    as (H1 & H2 & H3).
  split.
  - intros kgs fr. unfold fit_gap_simple_design.
    rewrite H1. simpl bind. rewrite H2. simpl bind. rewrite H3. reflexivity.
  - intros forces kgs fr Hc. unfold fit_gap_simple_design.
    rewrite H1. simpl bind. rewrite H2. simpl bind.
    unfold np_vstack. simpl ncols. rewrite Hc, Nat.eqb_refl. simpl bind.
    rewrite H3. simpl bind. unfold np_concatenate.
    do 3 f_equal.
    unfold spec_gradient_targets, vec_div_scalar, flatten, scalar_mul_mat.
    simpl rows. rewrite <- concat_map, map_map.
    apply map_ext. intros f. unfold Rdiv. lra.
Qed.

Lemma design_assembly_witness :
  (forall kernel_gradients_sparse force_regularizer,
      fit_gap_simple_design ex_geoms ex_energies ex_K_NM_energy 1 ex_table
        None kernel_gradients_sparse force_regularizer
      = Ok (mk_matrix (ncols ex_K_NM_energy)
              (spec_energy_rows ex_geoms ex_K_NM_energy 1),
            spec_energy_targets ex_geoms ex_energies 1 ex_table))
  /\ (forall forces kernel_gradients_sparse force_regularizer,
         ncols kernel_gradients_sparse = ncols ex_K_NM_energy ->
         fit_gap_simple_design ex_geoms ex_energies ex_K_NM_energy 1 ex_table
           (Some forces) (Some kernel_gradients_sparse)
           (Some force_regularizer)
         = Ok (mk_matrix (ncols ex_K_NM_energy)
                 (spec_energy_rows ex_geoms ex_K_NM_energy 1
                  ++ spec_gradient_rows kernel_gradients_sparse
                                        force_regularizer),
               spec_energy_targets ex_geoms ex_energies 1 ex_table
               ++ spec_gradient_targets forces force_regularizer)).
Proof.
  apply (design_assembly ex_geoms ex_energies ex_K_NM_energy 1 ex_table);
    reflexivity.
Defined.

(** ** Optional force arguments *)

(** C5: when [forces] is given and [kernel_gradients_sparse] or
    [force_regularizer] is left out, the call raises; no weights are
    returned. *)
Theorem forces_without_gradient_kernel_raise
        (lstsq : matrix -> vector -> option R -> vector)
        (geoms : list Atoms) (kernel_sparse : matrix) (energies : vector)
        (kernel_energies_sparse : matrix) (reg : R) (t : table)
        (forces : matrix) (kernel_gradients_sparse : option matrix)
        (force_regularizer rcond : option R) :
  kernel_gradients_sparse = None \/ force_regularizer = None ->
  exists e : exn,
    fit_gap_simple lstsq geoms kernel_sparse energies kernel_energies_sparse
      reg t (Some forces) kernel_gradients_sparse force_regularizer rcond
    = Err e.
Proof.
  intros Hmissing. unfold fit_gap_simple, fit_gap_simple_design.
  destruct (np_broadcast1 Rminus energies _) as [es|e]; simpl bind;
    [|now exists e].
  destruct (np_broadcast2 Rdiv kernel_energies_sparse _) as [kn|e];
    simpl bind; [|now exists e].
  exists TypeError.
  destruct Hmissing as [-> | ->]; [reflexivity|].
  now destruct kernel_gradients_sparse.
Qed.

Lemma forces_without_gradient_kernel_raise_witness :
  exists e : exn,
    fit_gap_simple (fun _ _ _ => [0]) ex_geoms (mk_matrix 2 [[1; 0]; [0; 1]])
      ex_energies ex_K_NM_energy 1 ex_table
      (Some (mk_matrix 3 [[0; 0; 1]; [0; 0; -1]])) None (Some 1) None
    = Err e.
Proof.
  apply (forces_without_gradient_kernel_raise
           (fun _ _ _ => [0]) ex_geoms (mk_matrix 2 [[1; 0]; [0; 1]])
           ex_energies ex_K_NM_energy 1 ex_table
           (mk_matrix 3 [[0; 0; 1]; [0; 0; -1]]) None (Some 1) None).
  left. reflexivity.
Defined.

(** C6: with [forces = None] the arguments [kernel_gradients_sparse] and
    [force_regularizer] are not read: two calls that differ only there give
    the same outcome.  Supplying them gives what omitting them gives, so
    they are never what a call is rejected for. *)
Theorem force_arguments_ignored_without_forces
        (lstsq : matrix -> vector -> option R -> vector)
        (geoms : list Atoms) (kernel_sparse : matrix) (energies : vector)
        (kernel_energies_sparse : matrix) (reg : R) (t : table)
        (rcond : option R)
        (kgs1 kgs2 : option matrix) (freg1 freg2 : option R) :
  fit_gap_simple lstsq geoms kernel_sparse energies kernel_energies_sparse
    reg t None kgs1 freg1 rcond
  = fit_gap_simple lstsq geoms kernel_sparse energies kernel_energies_sparse
      reg t None kgs2 freg2 rcond.
Proof.
  unfold fit_gap_simple, fit_gap_simple_design.
  destruct (np_broadcast1 Rminus energies _); reflexivity.
Qed.

(** ** The normal equations *)

Lemma column_nth (A : matrix) (j k : nat) :
  nth k (column A j) 0 = entry A k j.
Proof.
  unfold column, entry.
  replace 0 with ((fun r => nth j r 0) []) at 1 by now destruct j.
  apply (map_nth (fun r => nth j r 0)).
Qed.

Lemma column_length (A : matrix) (j : nat) : length (column A j) = nrows A.
Proof. unfold column, nrows. apply length_map. Qed.

Lemma dot_as_sum (u v : list R) :
  length u = length v ->
  dot u v = sum_range (length u) (fun k => nth k u 0 * nth k v 0).
Proof.
  unfold sum_range. revert v.
  induction u as [|x u IH]; intros [|y v] H; try discriminate; simpl.
  - reflexivity.
  - injection H as H. rewrite (IH v H), <- seq_shift, map_map. reflexivity.
Qed.

Lemma sum_range_ext (n : nat) (f g : nat -> R) :
  (forall k, f k = g k) -> sum_range n f = sum_range n g.
Proof.
  intros H. unfold sum_range. f_equal. apply map_ext. intros k. apply H.
Qed.

Lemma zip_with_seq {A B C : Type} (d : A) (f : A -> B -> C) (g : nat -> B)
      (xs : list A) (s : nat) :
  zip_with f xs (map g (seq s (length xs)))
  = map (fun i => f (nth (i - s) xs d) (g i)) (seq s (length xs)).
Proof.
  revert s. induction xs as [|x xs IH]; intros s; simpl.
  - reflexivity.
  - rewrite Nat.sub_diag. f_equal. rewrite IH.
    apply map_ext_in. intros i Hi. apply in_seq in Hi.
    replace (i - s)%nat with (S (i - S s)) by lia. reflexivity.
Qed.

Lemma zip_with_seq0 {A B C : Type} (d : A) (f : A -> B -> C) (g : nat -> B)
      (xs : list A) (n : nat) :
  length xs = n ->
  zip_with f xs (map g (seq 0 n))
  = map (fun i => f (nth i xs d) (g i)) (seq 0 n).
Proof.
  intros <-. rewrite (zip_with_seq d). apply map_ext. intros i.
  now rewrite Nat.sub_0_r.
Qed.

Lemma matmul_transpose_self (K_NM : matrix) :
  np_matmul (transpose K_NM) K_NM
  = Ok (mk_matrix (ncols K_NM)
          (map (fun i =>
                  map (fun j =>
                         sum_range (nrows K_NM)
                           (fun k => entry K_NM k i * entry K_NM k j))
                      (seq 0 (ncols K_NM)))
               (seq 0 (ncols K_NM)))).
Proof.
  unfold np_matmul, transpose. simpl ncols. simpl rows.
  rewrite Nat.eqb_refl, map_map. do 2 f_equal.
  apply map_ext. intros i. apply map_ext. intros j.
  rewrite dot_as_sum by now rewrite !column_length.
  rewrite column_length. apply sum_range_ext. intros k.
  now rewrite !column_nth.
Qed.

Lemma matvec_transpose (K_NM : matrix) (Y : vector) :
  length Y = nrows K_NM ->
  np_matvec (transpose K_NM) Y = Ok (normal_rhs K_NM Y).
Proof.
  intros HY. unfold np_matvec, transpose. simpl ncols. simpl rows.
  rewrite HY, Nat.eqb_refl, map_map. unfold normal_rhs.
  apply (f_equal Ok). apply map_ext. intros i.
  rewrite dot_as_sum by now rewrite column_length.
  rewrite column_length. apply sum_range_ext. intros k.
  now rewrite column_nth.
Qed.

Lemma add_square (K_MM : matrix) (M : nat) (g : nat -> nat -> R) :
  wf_matrix K_MM ->
  nrows K_MM = M ->
  ncols K_MM = M ->
  np_broadcast2 Rplus K_MM
    (mk_matrix M (map (fun i => map (g i) (seq 0 M)) (seq 0 M)))
  = Ok (mk_matrix M
          (map (fun i => map (fun j => entry K_MM i j + g i j) (seq 0 M))
               (seq 0 M))).
Proof.
  intros Hwf Hr Hc. unfold np_broadcast2, nrows. simpl.
  unfold nrows in Hr. rewrite length_map, length_seq, Hr, Hc, !bdim_same.
  do 2 f_equal.
  rewrite bmap2_same_length by now rewrite length_map, length_seq.
  rewrite (zip_with_seq0 []) by assumption.
  apply map_ext_in. intros i Hi. apply in_seq in Hi.
  assert (Hlen : length (nth i (rows K_MM) []) = M).
  { unfold wf_matrix in Hwf. rewrite Forall_forall in Hwf.
    rewrite (Hwf (nth i (rows K_MM) [])), Hc; [reflexivity|].
    apply nth_In. lia. }
  rewrite bmap2_same_length by now rewrite length_map, length_seq.
  now rewrite (zip_with_seq0 0) by assumption.
Qed.





(** ** The end-to-end scenario *)

(** A least-squares solution of a regular 1x1 system is its solution. *)
Lemma least_squares_1x1 (a b : R) (x : vector) :
  a <> 0 ->
  least_squares_solution (mk_matrix 1 [[a]]) [b] x ->
  x = [b / a].
Proof.
  intros Ha [Hlen Hmin]. simpl in Hlen.
  destruct x as [|w [|w' x]]; try discriminate.
  specialize (Hmin [b / a] eq_refl).
  unfold residual_sq in Hmin. simpl in Hmin.
  f_equal.
  assert (Hz : a * (b / a) = b) by (field; assumption).
  rewrite Hz in Hmin.
  assert (Hw : a * w = b) by nra.
  rewrite <- Hw. field. assumption.
Qed.

(** C3: [K_MM = [[1]]], [K_NM_energy = [[1],[2]]], energies [3, 5], an
    all-zero baseline table, two structures of one atom, regularizer 1 and
    no forces: the normal equation is [(1 + 1*1 + 2*2) w = 1*3 + 2*5], and
    with a solver that is least-squares on 1x1 systems the weight is
    [13/6]. *)
Theorem end_to_end_scenario
        (lstsq : matrix -> vector -> option R -> vector)
        (g1 g2 : Atoms) (t : table) :
  len g1 = 1%nat ->
  len g2 = 1%nat ->
  Forall (fun kv => snd kv = 0) t ->
  (forall a b,
      least_squares_solution (mk_matrix 1 [[a]]) [b]
                             (lstsq (mk_matrix 1 [[a]]) [b] None)) ->
  fit_gap_simple lstsq [g1; g2] (mk_matrix 1 [[1]]) [3; 5]
    (mk_matrix 1 [[1]; [2]]) 1 t None None None None
  = Ok (lstsq (mk_matrix 1 [[1 + (1 * 1 + (2 * 2 + 0))]])
              [1 * 3 + (2 * 5 + 0)] None)
  /\ fit_gap_simple lstsq [g1; g2] (mk_matrix 1 [[1]]) [3; 5]
       (mk_matrix 1 [[1]; [2]]) 1 t None None None None
     = Ok [13 / 6].
Proof.
  intros H1 H2 Hz Hsolver.
  assert (Hs : forall g, len g = 1%nat -> energy_scale 1 g = 1).
  { intros g Hg. unfold energy_scale. rewrite Hg. simpl INR.
    rewrite sqrt_1. lra. }
  assert (Hdesign :
            fit_gap_simple_design [g1; g2] [3; 5] (mk_matrix 1 [[1]; [2]])
              1 t None None None
            = Ok (mk_matrix 1 [[1]; [2]], [3; 5])).
  { destruct (energy_block [g1; g2] [3; 5] (mk_matrix 1 [[1]; [2]]) 1 t
                eq_refl eq_refl) as (E1 & E2 & E3).
    unfold fit_gap_simple_design.
    rewrite E1. cbn [bind]. rewrite E2. cbn [bind]. rewrite E3. cbn [bind].
    unfold spec_energy_rows, spec_energy_targets.
    cbn [zip_with map rows ncols].
    rewrite !(Hs g1 H1), !(Hs g2 H2), !baseline_zero_table by assumption.
    repeat f_equal; field. }
  assert (Hfit :
            fit_gap_simple lstsq [g1; g2] (mk_matrix 1 [[1]]) [3; 5]
              (mk_matrix 1 [[1]; [2]]) 1 t None None None None
            = Ok (lstsq (mk_matrix 1 [[1 + (1 * 1 + (2 * 2 + 0))]])
                        [1 * 3 + (2 * 5 + 0)] None)).
  { unfold fit_gap_simple. rewrite Hdesign. reflexivity. }
  split; [exact Hfit|].
  rewrite Hfit. f_equal.
  replace (1 + (1 * 1 + (2 * 2 + 0))) with 6 by lra.
  replace (1 * 3 + (2 * 5 + 0)) with 13 by lra.
  apply least_squares_1x1; [lra | apply Hsolver].
Qed.

Lemma end_to_end_scenario_witness :
  fit_gap_simple solve_1x1 [mk_Atoms [1%Z]; mk_Atoms [8%Z]]
    (mk_matrix 1 [[1]]) [3; 5] (mk_matrix 1 [[1]; [2]]) 1
    [(1%Z, 0); (8%Z, 0)] None None None None
  = Ok (solve_1x1 (mk_matrix 1 [[1 + (1 * 1 + (2 * 2 + 0))]])
                  [1 * 3 + (2 * 5 + 0)] None)
  /\ fit_gap_simple solve_1x1 [mk_Atoms [1%Z]; mk_Atoms [8%Z]]
       (mk_matrix 1 [[1]]) [3; 5] (mk_matrix 1 [[1]; [2]]) 1
       [(1%Z, 0); (8%Z, 0)] None None None None
     = Ok [13 / 6].
Proof.
  apply (end_to_end_scenario solve_1x1 (mk_Atoms [1%Z]) (mk_Atoms [8%Z])
                             [(1%Z, 0); (8%Z, 0)]).
  - reflexivity.
  - reflexivity.
  - repeat constructor.
  - intros a b. split; [reflexivity|].
    intros x' Hx'. destruct x' as [|w [|w' x']]; try discriminate.
    unfold residual_sq. simpl.
    destruct (Req_dec a 0) as [->|Ha].
    + rewrite !Rmult_0_l. apply Rle_refl.
    + replace (a * (b / a) + 0 - b) with 0 by (field; assumption).
      pose proof (Rle_0_sqr (a * w + 0 - b)) as Hsq. unfold Rsqr in Hsq.
      lra.
Defined.

(** ** [compute_kernels] *)

Section KernelsProperties.

Context {Representation Features SparsePoints Kernel : Type}.
Variable models_Kernel :
  Representation -> string -> Z -> string -> string -> Kernel.
Variable kernel_self : Kernel -> SparsePoints -> ndarray.
Variable kernel_cross :
  Kernel -> Features -> SparsePoints -> bool * bool -> ndarray.

(** C8: with [compute_sparse_kernel = False] the sparse kernel returned is
    the empty array and the kernel is never evaluated on the sparse points
    alone; the tuple has the gradient kernel as a fourth, last component
    when [do_gradients] is true and has three components otherwise. *)
Theorem compute_kernels_shape
        (rep : Representation) (soaps : Features)
        (sparse_points : SparsePoints) (soap_power : Z) :
  (forall do_gradients,
      let '(ret, log) :=
        compute_kernels models_Kernel kernel_self kernel_cross
                        rep soaps sparse_points soap_power
                        do_gradients false in
      sparse_kernel_of ret = Array1 []
      /\ existsb is_eval_self log = false)
  /\ (forall do_gradients compute_sparse_kernel,
         let kernel :=
           models_Kernel rep "GAP"%string soap_power
                         "Structure"%string "Sparse"%string in
         let ret :=
           fst (compute_kernels models_Kernel kernel_self kernel_cross
                                rep soaps sparse_points soap_power
                                do_gradients compute_sparse_kernel) in
         tuple_length ret = (if do_gradients then 4 else 3)%nat
         /\ gradient_kernel_of ret
            = (if do_gradients
               then Some (kernel_cross kernel soaps sparse_points
                                       (true, false))
               else None)).
Proof.
  split.
  - intros do_gradients. unfold compute_kernels.
    destruct do_gradients; simpl; split; reflexivity.
  - intros do_gradients compute_sparse_kernel kernel ret.
    subst ret kernel. unfold compute_kernels.
    destruct compute_sparse_kernel, do_gradients; simpl; split; reflexivity.
Qed.

End KernelsProperties.

(** ** Frame: computations that only allocate *)

Lemma allocates_only_ret {A : Type} (a : A) : allocates_only (st_ret a).
Proof. intros s. exists []. simpl. now rewrite app_nil_r. Qed.

Lemma allocates_only_lift {A : Type} (r : result A) :
  allocates_only (st_lift r).
Proof. intros s. exists []. simpl. now rewrite app_nil_r. Qed.

Lemma allocates_only_alloc (o : object) : allocates_only (alloc o).
Proof. intros s. now exists [o]. Qed.

Lemma allocates_only_bind {A B : Type} (m : ST A) (k : A -> ST B) :
  allocates_only m ->
  (forall a, allocates_only (k a)) ->
  allocates_only (st_bind m k).
Proof.
  intros Hm Hk s. unfold st_bind.
  destruct (Hm s) as [f1 H1].
  destruct (m s) as [[a|e] s1]; simpl in H1; subst s1.
  - destruct (Hk a (s ++ f1)) as [f2 H2].
    exists (f1 ++ f2). now rewrite H2, app_assoc.
  - now exists f1.
Qed.

Lemma allocates_only_load_atoms r : allocates_only (load_atoms r).
Proof.
  intros s. exists []. unfold load_atoms.
  destruct (nth_error s r) as [[]|]; simpl; now rewrite app_nil_r.
Qed.

Lemma allocates_only_load_float1 r : allocates_only (load_float1 r).
Proof.
  intros s. exists []. unfold load_float1.
  destruct (nth_error s r) as [[]|]; simpl; now rewrite app_nil_r.
Qed.

Lemma allocates_only_load_float2 r : allocates_only (load_float2 r).
Proof.
  intros s. exists []. unfold load_float2.
  destruct (nth_error s r) as [[]|]; simpl; now rewrite app_nil_r.
Qed.

Lemma allocates_only_load_int1 r : allocates_only (load_int1 r).
Proof.
  intros s. exists []. unfold load_int1.
  destruct (nth_error s r) as [[]|]; simpl; now rewrite app_nil_r.
Qed.

Lemma allocates_only_load_count1 r : allocates_only (load_count1 r).
Proof.
  intros s. exists []. unfold load_count1.
  destruct (nth_error s r) as [[]|]; simpl; now rewrite app_nil_r.
Qed.

Lemma allocates_only_load_bool1 r : allocates_only (load_bool1 r).
Proof.
  intros s. exists []. unfold load_bool1.
  destruct (nth_error s r) as [[]|]; simpl; now rewrite app_nil_r.
Qed.

Lemma allocates_only_mapM {A B : Type} (f : A -> ST B) (l : list A) :
  (forall a, allocates_only (f a)) -> allocates_only (st_mapM f l).
Proof.
  intros Hf. induction l as [|a l IH]; simpl.
  - apply allocates_only_ret.
  - apply allocates_only_bind; [apply Hf|]. intros b.
    apply allocates_only_bind; [apply IH|]. intros bs.
    apply allocates_only_ret.
Qed.

Create HintDb frame.

#[local] Hint Resolve
  allocates_only_ret allocates_only_lift allocates_only_alloc
  allocates_only_load_atoms allocates_only_load_float1
  allocates_only_load_float2 allocates_only_load_int1
  allocates_only_load_count1 allocates_only_load_bool1 : frame.

(** Walks a computation built from [st_bind], loads and allocations. *)
Ltac frame_step :=
  first [ apply allocates_only_bind; [|intros ?]
        | solve [auto with frame] ].

Ltac frame := repeat frame_step.

Lemma allocates_only_baseline_loop geom items e0 :
  allocates_only (st_baseline_loop geom items e0).
Proof.
  revert e0. induction items as [|[species e0_value] items IH]; intros e0;
    simpl.
  - apply allocates_only_ret.
  - unfold st_get_atomic_numbers, st_eq_scalar, st_sum_bool. frame.
Qed.

Lemma allocates_only_solve lstsq kernel_sparse K_NM Y rcond :
  allocates_only (st_solve lstsq kernel_sparse K_NM Y rcond).
Proof.
  unfold st_solve, st_transpose, st_matmul, st_broadcast2, st_matvec,
    st_linalg_lstsq.
  frame.
Qed.

(** An in-place write is not of this kind. *)
Lemma assign_not_allocates_only :
  ~ allocates_only (assign 0%nat (ObjFloat1 [1])).
Proof.
  intros H. destruct (H [ObjFloat1 [0]]) as [fresh Hf].
  simpl in Hf. injection Hf as Hv _.
  assert (Hne : (1 : R) <> 0) by lra. apply Hne. congruence.
Qed.

(** C9: a call leaves every object of the store it is started in as it
    was, whether it returns the weights or raises: the arrays and
    structures passed in keep their values, and every intermediate array
    is a new object appended to the store. *)
Theorem fit_gap_simple_leaves_inputs_unchanged
        (lstsq : matrix -> vector -> option R -> vector)
        (geoms : list ref)
        (kernel_sparse energies kernel_energies_sparse : ref)
        (reg : R) (t : table) (forces kernel_gradients_sparse : option ref)
        (force_regularizer rcond : option R) (s : store) :
  let s' :=
    snd (st_fit_gap_simple lstsq geoms kernel_sparse energies
           kernel_energies_sparse reg t forces kernel_gradients_sparse
           force_regularizer rcond s) in
  (exists fresh : list object, s' = s ++ fresh)
  /\ (forall (r : ref) (o : object),
         nth_error s r = Some o -> nth_error s' r = Some o).
Proof.
  assert (H : allocates_only
                (st_fit_gap_simple lstsq geoms kernel_sparse energies
                   kernel_energies_sparse reg t forces
                   kernel_gradients_sparse force_regularizer rcond)).
  { unfold st_fit_gap_simple.
    apply allocates_only_bind.
    { apply allocates_only_mapM. intros geom.
      apply allocates_only_baseline_loop. }
    intros e0s. apply allocates_only_bind; [auto with frame|].
    intros e0_all. unfold st_broadcast1 at 1.
    apply allocates_only_bind; [frame|]. intros energies_shifted.
    apply allocates_only_bind.
    { apply allocates_only_mapM. intros geom. unfold st_len. frame. }
    intros ns.
    unfold st_sqrt, st_scalar_mul_vec, st_newaxis_col, st_broadcast2.
    do 5 (apply allocates_only_bind; [frame|]; intros ?).
    destruct forces as [forces|].
    - unfold st_scalar_mul_mat, st_opt_mat_div_scalar, st_vstack,
        st_broadcast1, st_flatten, st_opt_vec_div_scalar, st_concatenate.
      apply allocates_only_bind; [frame|]. intros gradients.
      apply allocates_only_bind.
      { destruct kernel_gradients_sparse, force_regularizer; frame. }
      intros kernel_gradients_norm.
      do 5 (apply allocates_only_bind; [frame|]; intros ?).
      apply allocates_only_solve.
    - unfold st_broadcast1.
      apply allocates_only_bind; [frame|]. intros Y.
      apply allocates_only_solve. }
  intros s'. destruct (H s) as [fresh Hfresh]. fold s' in Hfresh.
  split.
  - now exists fresh.
  - intros r o Hr. rewrite Hfresh.
    rewrite nth_error_app1; [assumption|].
    apply nth_error_Some. congruence.
Qed.

(** ** The store computation computes what [fit_gap_simple] does *)

Lemma lookup_new (s : store) (o : object) :
  nth_error (s ++ [o]) (length s) = Some o.
Proof. rewrite nth_error_app2, Nat.sub_diag by lia. reflexivity. Qed.

Lemma lookup_app (s l : store) (r : ref) (o : object) :
  nth_error s r = Some o -> nth_error (s ++ l) r = Some o.
Proof.
  intros H. rewrite nth_error_app1; [assumption|].
  apply nth_error_Some. congruence.
Qed.

Ltac lookup :=
  solve [ repeat first [ apply lookup_new | eassumption | apply lookup_app ] ].

Lemma st_bind_run {A B : Type} (m : ST A) (k : A -> ST B) (s : store) :
  st_bind m k s
  = match m s with
    | (Ok a, s') => k a s'
    | (Err e, s') => (Err e, s')
    end.
Proof. reflexivity. Qed.

Lemma run_load_atoms s r g :
  nth_error s r = Some (ObjAtoms g) -> load_atoms r s = (Ok g, s).
Proof. intros H. unfold load_atoms. now rewrite H. Qed.

Lemma run_load_float1 s r v :
  nth_error s r = Some (ObjFloat1 v) -> load_float1 r s = (Ok v, s).
Proof. intros H. unfold load_float1. now rewrite H. Qed.

Lemma run_load_float2 s r m :
  nth_error s r = Some (ObjFloat2 m) -> load_float2 r s = (Ok m, s).
Proof. intros H. unfold load_float2. now rewrite H. Qed.

Ltac run_loads :=
  repeat (rewrite st_bind_run;
          first [ erewrite run_load_float1 by eassumption
                | erewrite run_load_float2 by eassumption
                | erewrite run_load_atoms by eassumption ]).

Lemma run_broadcast1 f s a b u v :
  nth_error s a = Some (ObjFloat1 u) ->
  nth_error s b = Some (ObjFloat1 v) ->
  st_broadcast1 f a b s = alloc_result ObjFloat1 (np_broadcast1 f u v) s.
Proof.
  intros Ha Hb. unfold st_broadcast1. run_loads.
  rewrite st_bind_run. unfold st_lift.
  destruct (np_broadcast1 f u v); reflexivity.
Qed.

Lemma run_broadcast2 f s a b A B :
  nth_error s a = Some (ObjFloat2 A) ->
  nth_error s b = Some (ObjFloat2 B) ->
  st_broadcast2 f a b s = alloc_result ObjFloat2 (np_broadcast2 f A B) s.
Proof.
  intros Ha Hb. unfold st_broadcast2. run_loads.
  rewrite st_bind_run. unfold st_lift.
  destruct (np_broadcast2 f A B); reflexivity.
Qed.

Lemma run_vstack s a b A B :
  nth_error s a = Some (ObjFloat2 A) ->
  nth_error s b = Some (ObjFloat2 B) ->
  st_vstack a b s = alloc_result ObjFloat2 (np_vstack A B) s.
Proof.
  intros Ha Hb. unfold st_vstack. run_loads.
  rewrite st_bind_run. unfold st_lift.
  destruct (np_vstack A B); reflexivity.
Qed.

Lemma run_matmul s a b A B :
  nth_error s a = Some (ObjFloat2 A) ->
  nth_error s b = Some (ObjFloat2 B) ->
  st_matmul a b s = alloc_result ObjFloat2 (np_matmul A B) s.
Proof.
  intros Ha Hb. unfold st_matmul. run_loads.
  rewrite st_bind_run. unfold st_lift.
  destruct (np_matmul A B); reflexivity.
Qed.

Lemma run_matvec s a b A y :
  nth_error s a = Some (ObjFloat2 A) ->
  nth_error s b = Some (ObjFloat1 y) ->
  st_matvec a b s = alloc_result ObjFloat1 (np_matvec A y) s.
Proof.
  intros Ha Hb. unfold st_matvec. run_loads.
  rewrite st_bind_run. unfold st_lift.
  destruct (np_matvec A y); reflexivity.
Qed.

Lemma run_linalg_lstsq lstsq s a b K y rcond :
  nth_error s a = Some (ObjFloat2 K) ->
  nth_error s b = Some (ObjFloat1 y) ->
  st_linalg_lstsq lstsq a b rcond s
  = alloc_result ObjFloat1 (np_linalg_lstsq lstsq K y rcond) s.
Proof.
  intros Ha Hb. unfold st_linalg_lstsq. run_loads.
  rewrite st_bind_run. unfold st_lift.
  destruct (np_linalg_lstsq lstsq K y rcond); reflexivity.
Qed.

Lemma run_opt_vec_div_scalar s a v c :
  nth_error s a = Some (ObjFloat1 v) ->
  st_opt_vec_div_scalar a c s
  = alloc_result ObjFloat1 (opt_vec_div_scalar v c) s.
Proof.
  intros Ha. unfold st_opt_vec_div_scalar. run_loads.
  rewrite st_bind_run. unfold st_lift.
  destruct (opt_vec_div_scalar v c); reflexivity.
Qed.

Lemma opt_refers_app s l a A :
  opt_refers s a A -> opt_refers (s ++ l) a A.
Proof.
  unfold opt_refers. destruct a, A; try exact (fun H => H).
  apply lookup_app.
Qed.

Lemma run_opt_mat_div_scalar s a A c :
  opt_refers s a A ->
  st_opt_mat_div_scalar a c s
  = alloc_result ObjFloat2 (opt_mat_div_scalar A c) s.
Proof.
  unfold opt_refers, st_opt_mat_div_scalar.
  destruct a as [r|], A as [m|]; try contradiction; intros H.
  - destruct c as [c|]; [|reflexivity]. run_loads. reflexivity.
  - reflexivity.
Qed.

Lemma run_sqrt s a ns :
  nth_error s a = Some (ObjCount1 ns) ->
  st_sqrt a s = (Ok (length s), s ++ [ObjFloat1 (np_sqrt ns)]).
Proof.
  intros Ha. unfold st_sqrt, load_count1. rewrite st_bind_run, Ha.
  reflexivity.
Qed.

Lemma run_scalar_mul_vec s c a v :
  nth_error s a = Some (ObjFloat1 v) ->
  st_scalar_mul_vec c a s
  = (Ok (length s), s ++ [ObjFloat1 (scalar_mul_vec c v)]).
Proof. intros Ha. unfold st_scalar_mul_vec. run_loads. reflexivity. Qed.

Lemma run_scalar_mul_mat s c a A :
  nth_error s a = Some (ObjFloat2 A) ->
  st_scalar_mul_mat c a s
  = (Ok (length s), s ++ [ObjFloat2 (scalar_mul_mat c A)]).
Proof. intros Ha. unfold st_scalar_mul_mat. run_loads. reflexivity. Qed.

Lemma run_newaxis_col s a v :
  nth_error s a = Some (ObjFloat1 v) ->
  st_newaxis_col a s = (Ok (length s), s ++ [ObjFloat2 (newaxis_col v)]).
Proof. intros Ha. unfold st_newaxis_col. run_loads. reflexivity. Qed.

Lemma run_flatten s a A :
  nth_error s a = Some (ObjFloat2 A) ->
  st_flatten a s = (Ok (length s), s ++ [ObjFloat1 (flatten A)]).
Proof. intros Ha. unfold st_flatten. run_loads. reflexivity. Qed.

Lemma run_transpose s a A :
  nth_error s a = Some (ObjFloat2 A) ->
  st_transpose a s = (Ok (length s), s ++ [ObjFloat2 (transpose A)]).
Proof. intros Ha. unfold st_transpose. run_loads. reflexivity. Qed.

Lemma run_concatenate s a b u v :
  nth_error s a = Some (ObjFloat1 u) ->
  nth_error s b = Some (ObjFloat1 v) ->
  st_concatenate a b s
  = (Ok (length s), s ++ [ObjFloat1 (np_concatenate u v)]).
Proof. intros Ha Hb. unfold st_concatenate. run_loads. reflexivity. Qed.

Lemma count_true_map (f : Z -> bool) (a : list Z) :
  length (filter (fun b : bool => b) (map f a)) = length (filter f a).
Proof.
  induction a as [|z a IH]; simpl; [reflexivity|].
  destruct (f z); simpl; now rewrite IH.
Qed.

Lemma run_get_atomic_numbers s geom g :
  nth_error s geom = Some (ObjAtoms g) ->
  st_get_atomic_numbers geom s
  = (Ok (length s), s ++ [ObjInt1 (get_atomic_numbers g)]).
Proof. intros H. unfold st_get_atomic_numbers. run_loads. reflexivity. Qed.

Lemma run_eq_scalar s a zs species :
  nth_error s a = Some (ObjInt1 zs) ->
  st_eq_scalar a species s
  = (Ok (length s),
     s ++ [ObjBool1 (map (fun z => (z =? species)%Z) zs)]).
Proof.
  intros H. unfold st_eq_scalar, load_int1. rewrite st_bind_run, H.
  reflexivity.
Qed.

Lemma run_sum_bool s mask zs species :
  nth_error s mask = Some (ObjBool1 (map (fun z => (z =? species)%Z) zs)) ->
  st_sum_bool mask s = (Ok (count_species zs species), s).
Proof.
  intros H. unfold st_sum_bool, load_bool1. rewrite st_bind_run, H.
  unfold st_ret, count_species. now rewrite count_true_map.
Qed.

Lemma run_baseline_loop geom g items :
  forall s e0,
    nth_error s geom = Some (ObjAtoms g) ->
    exists fresh,
      st_baseline_loop geom items e0 s
      = (Ok (fold_left
               (fun e0 '(species, e0_value) =>
                  e0 + e0_value
                       * INR (count_species (get_atomic_numbers g) species))
               items e0),
         s ++ fresh).
Proof.
  induction items as [|[species e0_value] items IH]; intros s e0 Hg; simpl.
  - exists []. unfold st_ret. now rewrite app_nil_r.
  - pose (s1 := s ++ [ObjInt1 (get_atomic_numbers g)]).
    pose (s2 := s1 ++ [ObjBool1 (map (fun z => (z =? species)%Z)
                                     (get_atomic_numbers g))]).
    destruct (IH s2 (e0 + e0_value
                          * INR (count_species (get_atomic_numbers g)
                                               species)))
      as [fresh Hfresh]; [subst s2 s1; lookup|].
    exists ([ObjInt1 (get_atomic_numbers g)]
            ++ [ObjBool1 (map (fun z => (z =? species)%Z)
                              (get_atomic_numbers g))] ++ fresh).
    rewrite st_bind_run, (run_get_atomic_numbers s geom g Hg).
    fold s1. rewrite st_bind_run.
    rewrite (run_eq_scalar s1 (length s) (get_atomic_numbers g) species)
      by apply lookup_new.
    fold s2. rewrite st_bind_run.
    rewrite (run_sum_bool s2 (length s1) (get_atomic_numbers g) species)
      by apply lookup_new.
    rewrite Hfresh. subst s2 s1. now rewrite <- !app_assoc.
Qed.

Lemma refer_to_app s l refs geoms :
  refer_to s refs geoms -> refer_to (s ++ l) refs geoms.
Proof.
  unfold refer_to. intros H. eapply Forall2_impl; [|exact H].
  intros r g Hr. now apply lookup_app.
Qed.

Lemma run_mapM_baseline (t : table) refs geoms :
  forall s,
    refer_to s refs geoms ->
    exists fresh,
      st_mapM (fun geom => st_get_energy_baseline geom t) refs s
      = (Ok (map (fun g => _get_energy_baseline g t) geoms), s ++ fresh).
Proof.
  unfold st_get_energy_baseline.
  revert geoms. induction refs as [|r refs IH]; intros geoms s H;
    inversion H as [|? g ? geoms' Hr Hrest]; subst; simpl.
  - exists []. unfold st_ret. now rewrite app_nil_r.
  - rewrite st_bind_run.
    destruct (run_baseline_loop r g t s 0 Hr) as [f1 H1]. rewrite H1.
    rewrite st_bind_run.
    destruct (IH geoms' (s ++ f1) (refer_to_app _ _ _ _ Hrest)) as [f2 H2].
    rewrite H2. unfold st_ret. exists (f1 ++ f2).
    now rewrite app_assoc.
Qed.

Lemma run_mapM_len refs geoms :
  forall s,
    refer_to s refs geoms ->
    st_mapM st_len refs s = (Ok (map len geoms), s).
Proof.
  revert geoms. induction refs as [|r refs IH]; intros geoms s H;
    inversion H as [|? g ? geoms' Hr Hrest]; subst; simpl.
  - reflexivity.
  - rewrite st_bind_run. unfold st_len at 1. run_loads. unfold st_ret at 1.
    rewrite st_bind_run, (IH geoms' s Hrest). reflexivity.
Qed.

Ltac run_op :=
  rewrite st_bind_run;
  first [ erewrite run_transpose by lookup
        | erewrite run_matmul by lookup
        | erewrite run_matvec by lookup
        | erewrite run_broadcast1 by lookup
        | erewrite run_broadcast2 by lookup
        | erewrite run_vstack by lookup
        | erewrite run_sqrt by lookup
        | erewrite run_scalar_mul_vec by lookup
        | erewrite run_scalar_mul_mat by lookup
        | erewrite run_newaxis_col by lookup
        | erewrite run_flatten by lookup
        | erewrite run_concatenate by lookup
        | erewrite run_opt_vec_div_scalar by lookup ].

(** After a case split on the next fallible operation of the model: the
    raising case is closed, the other continues. *)
Ltac outcome := cbn [alloc_result bind]; try reflexivity.

Lemma run_solve lstsq s rks rK rY ks K_NM Y rcond :
  nth_error s rks = Some (ObjFloat2 ks) ->
  nth_error s rK = Some (ObjFloat2 K_NM) ->
  nth_error s rY = Some (ObjFloat1 Y) ->
  agrees (st_solve lstsq rks rK rY rcond s)
         (KtK <- np_matmul (transpose K_NM) K_NM ;;
          K <- np_broadcast2 Rplus ks KtK ;;
          b <- np_matvec (transpose K_NM) Y ;;
          np_linalg_lstsq lstsq K b rcond).
Proof.
  intros Hks HK HY. unfold st_solve.
  run_op. run_op.
  destruct (np_matmul (transpose K_NM) K_NM) as [KtK|e]; outcome.
  run_op. destruct (np_broadcast2 Rplus ks KtK) as [K|e]; outcome.
  run_op. run_op.
  destruct (np_matvec (transpose K_NM) Y) as [b|e]; outcome.
  erewrite run_linalg_lstsq by lookup.
  destruct (np_linalg_lstsq lstsq K b rcond) as [w|e]; outcome.
  eexists. split; [reflexivity|]. apply lookup_new.
Qed.

(** The store computation, started with references to the arguments of
    [fit_gap_simple], raises what the functional model raises or returns a
    reference to the weights the model returns. *)
Lemma st_fit_gap_simple_agrees
      (lstsq : matrix -> vector -> option R -> vector)
      (s : store) (rgeoms : list ref) (geoms : list Atoms)
      (rks ren rkes : ref) (kernel_sparse : matrix) (energies : vector)
      (kernel_energies_sparse : matrix) (reg : R) (t : table)
      (rforces rkgs : option ref) (forces kgs : option matrix)
      (force_regularizer rcond : option R) :
  refer_to s rgeoms geoms ->
  nth_error s rks = Some (ObjFloat2 kernel_sparse) ->
  nth_error s ren = Some (ObjFloat1 energies) ->
  nth_error s rkes = Some (ObjFloat2 kernel_energies_sparse) ->
  opt_refers s rforces forces ->
  opt_refers s rkgs kgs ->
  agrees (st_fit_gap_simple lstsq rgeoms rks ren rkes reg t rforces rkgs
            force_regularizer rcond s)
         (fit_gap_simple lstsq geoms kernel_sparse energies
            kernel_energies_sparse reg t forces kgs force_regularizer rcond).
Proof.
  intros Hgeoms Hks Hen Hkes Hforces Hkgs.
  unfold st_fit_gap_simple, fit_gap_simple, fit_gap_simple_design.
  rewrite st_bind_run.
  destruct (run_mapM_baseline t rgeoms geoms s Hgeoms) as [fresh Hrun].
  rewrite Hrun. clear Hrun.
  set (e0_all := map (fun geom => _get_energy_baseline geom t) geoms).
  set (s1 := s ++ fresh).
  assert (Hgeoms1 : refer_to s1 rgeoms geoms) by now apply refer_to_app.
  assert (Hks1 : nth_error s1 rks = Some (ObjFloat2 kernel_sparse))
    by now apply lookup_app.
  assert (Hen1 : nth_error s1 ren = Some (ObjFloat1 energies))
    by now apply lookup_app.
  assert (Hkes1 : nth_error s1 rkes = Some (ObjFloat2 kernel_energies_sparse))
    by now apply lookup_app.
  assert (Hforces1 : opt_refers s1 rforces forces)
    by now apply opt_refers_app.
  assert (Hkgs1 : opt_refers s1 rkgs kgs) by now apply opt_refers_app.
  clearbody s1. clear Hgeoms Hks Hen Hkes Hforces Hkgs fresh s.
  rewrite st_bind_run. unfold alloc at 1.
  run_op.
  destruct (np_broadcast1 Rminus energies e0_all) as [energies_shifted|e];
    outcome.
  rewrite st_bind_run.
  rewrite (run_mapM_len rgeoms geoms)
    by (repeat apply refer_to_app; assumption).
  rewrite st_bind_run. unfold alloc at 1.
  run_op. run_op. run_op. run_op.
  destruct (np_broadcast2 Rdiv kernel_energies_sparse _)
    as [kernel_energies_norm|e]; outcome.
  destruct rforces as [rf|], forces as [F|]; try contradiction;
    simpl in Hforces1.
  - run_op. rewrite st_bind_run.
    erewrite run_opt_mat_div_scalar
      by (repeat apply opt_refers_app; eassumption).
    destruct (opt_mat_div_scalar kgs force_regularizer)
      as [kernel_gradients_norm|e]; outcome.
    run_op.
    destruct (np_vstack kernel_energies_norm kernel_gradients_norm)
      as [K_NM|e]; outcome.
    run_op.
    destruct (np_broadcast1 Rdiv energies_shifted _) as [Y_e|e]; outcome.
    run_op. run_op.
    destruct (opt_vec_div_scalar _ force_regularizer) as [Y_g|e]; outcome.
    run_op. apply run_solve; lookup.
  - run_op.
    destruct (np_broadcast1 Rdiv energies_shifted _) as [Y|e]; outcome.
    apply run_solve; lookup.
Qed.

(** * Further properties *)

(** ** The design matrix *)

Lemma zip_with_map_zero_r (xs : list R) {B : Type} (ys : list B) :
  length xs = length ys ->
  zip_with Rminus xs (map (fun _ => 0) ys) = xs.
Proof.
  revert ys. induction xs as [|x xs IH]; intros [|y ys] H; simpl;
    try reflexivity; try discriminate.
  injection H as H. rewrite (IH ys H). f_equal. lra.
Qed.

(** X3: the table enters the design only through the shifted energies:
    subtracting the baselines beforehand and passing an empty table gives
    the same design. *)
Theorem design_depends_on_shifted_energies
        (geoms : list Atoms) (energies : vector) (kes : matrix) (reg : R)
        (t : table) (forces kgs : option matrix) (freg : option R) :
  length energies = length geoms ->
  fit_gap_simple_design geoms energies kes reg t forces kgs freg
  = fit_gap_simple_design geoms
      (zip_with Rminus energies
                (map (fun geom => _get_energy_baseline geom t) geoms))
      kes reg [] forces kgs freg.
Proof.
  intros He. unfold fit_gap_simple_design.
  set (e0_all := map (fun geom => _get_energy_baseline geom t) geoms).
  assert (Hl : length (zip_with Rminus energies e0_all) = length geoms).
  { rewrite zip_with_length; [assumption|].
    unfold e0_all. now rewrite length_map. }
  assert (H1 : np_broadcast1 Rminus energies e0_all
               = Ok (zip_with Rminus energies e0_all)).
  { unfold np_broadcast1, e0_all. rewrite length_map, He, bdim_same.
    now rewrite bmap2_same_length by now rewrite length_map. }
  assert (H2 : np_broadcast1 Rminus (zip_with Rminus energies e0_all)
                 (map (fun geom => _get_energy_baseline geom []) geoms)
               = Ok (zip_with Rminus energies e0_all)).
  { unfold np_broadcast1. rewrite length_map, Hl, bdim_same.
    rewrite bmap2_same_length by now rewrite length_map.
    change (fun geom : Atoms => _get_energy_baseline geom [])
      with (fun _ : Atoms => 0).
    now rewrite zip_with_map_zero_r. }
  rewrite H1, H2. reflexivity.
Qed.

Lemma design_depends_on_shifted_energies_witness :
  fit_gap_simple_design ex_geoms ex_energies ex_K_NM_energy 1 ex_table
    None None None
  = fit_gap_simple_design ex_geoms
      (zip_with Rminus ex_energies
                (map (fun geom => _get_energy_baseline geom ex_table)
                     ex_geoms))
      ex_K_NM_energy 1 [] None None None.
Proof.
  apply (design_depends_on_shifted_energies
           ex_geoms ex_energies ex_K_NM_energy 1 ex_table None None None).
  reflexivity.
Defined.

Lemma design_energy_only (geoms : list Atoms) (energies : vector)
      (kes : matrix) (reg : R) (t : table)
      (kgs : option matrix) (freg : option R) :
  length energies = length geoms ->
  nrows kes = length geoms ->
  fit_gap_simple_design geoms energies kes reg t None kgs freg
  = Ok (mk_matrix (ncols kes) (spec_energy_rows geoms kes reg),
        spec_energy_targets geoms energies reg t).
Proof.
  intros He Hk.
  destruct (energy_block geoms energies kes reg t He Hk) as (H1 & H2 & H3).
  unfold fit_gap_simple_design.
  rewrite H1. cbn [bind]. rewrite H2. cbn [bind]. rewrite H3. reflexivity.
Qed.

Lemma design_with_forces (geoms : list Atoms) (energies : vector)
      (kes : matrix) (reg : R) (t : table) (F G : matrix) (freg : R) :
  length energies = length geoms ->
  nrows kes = length geoms ->
  ncols G = ncols kes ->
  fit_gap_simple_design geoms energies kes reg t (Some F) (Some G) (Some freg)
  = Ok (mk_matrix (ncols kes)
          (spec_energy_rows geoms kes reg ++ spec_gradient_rows G freg),
        spec_energy_targets geoms energies reg t
        ++ spec_gradient_targets F freg).
Proof.
  intros He Hk Hc.
  destruct (energy_block geoms energies kes reg t He Hk) as (H1 & H2 & H3).
  unfold fit_gap_simple_design.
  rewrite H1. cbn [bind]. rewrite H2. cbn [bind].
  unfold np_vstack. cbn [ncols opt_mat_div_scalar mat_div_scalar bind].
  rewrite Hc, Nat.eqb_refl. cbn [bind]. rewrite H3. cbn [bind].
  unfold np_concatenate, opt_vec_div_scalar. cbn [bind rows].
  do 3 f_equal.
  unfold spec_gradient_targets, vec_div_scalar, flatten, scalar_mul_mat.
  cbn [rows]. rewrite <- concat_map, map_map.
  apply map_ext. intros f. unfold Rdiv. lra.
Qed.





Lemma Forall_zip_with {A B C : Type} (P : C -> Prop) (g : A -> B -> C)
      xs ys :
  (forall x y, In x xs -> In y ys -> P (g x y)) ->
  Forall P (zip_with g xs ys).
Proof.
  revert ys. induction xs as [|x xs IH]; intros [|y ys] H; simpl;
    try constructor.
  - apply H; now left.
  - apply IH. intros x' y' Hx Hy. apply H; now right.
Qed.

Lemma Forall_bmap2 {A B C : Type} (P : C -> Prop) (g : A -> B -> C) xs ys :
  (forall x y, In x xs -> In y ys -> P (g x y)) ->
  Forall P (bmap2 g xs ys).
Proof.
  intros H. unfold bmap2.
  destruct (length xs =? length ys)%nat; [now apply Forall_zip_with|].
  destruct xs as [|x [|x' xs]].
  - destruct ys as [|y [|y' ys]]; constructor.
  - apply Forall_forall. intros c Hc. apply in_map_iff in Hc.
    destruct Hc as (y & <- & Hy). apply H; [now left|assumption].
  - destruct ys as [|y [|y' ys]]; try constructor.
    + apply H; now left.
    + constructor.
      * apply H; [right|]; now left.
      * apply Forall_forall. intros c Hc. apply in_map_iff in Hc.
        destruct Hc as (x0 & <- & Hx). apply H; [|now left].
        right. now right.
Qed.

Lemma broadcast2_column_wf (f : R -> R -> R) (A C : matrix) (v : vector) :
  wf_matrix A ->
  np_broadcast2 f A (newaxis_col v) = Ok C ->
  wf_matrix C /\ ncols C = ncols A.
Proof.
  intros Hwf. unfold np_broadcast2.
  destruct (bdim (nrows A) (nrows (newaxis_col v))); [|discriminate].
  cbn [newaxis_col ncols rows]. rewrite bdim_one_r.
  intros HC. injection HC as <-. split; [|reflexivity].
  unfold wf_matrix. cbn [ncols rows].
  apply Forall_bmap2. intros row y Hrow Hy.
  apply in_map_iff in Hy. destruct Hy as (x & <- & _).
  rewrite bmap2_scalar_r, length_map.
  unfold wf_matrix in Hwf. rewrite Forall_forall in Hwf. now apply Hwf.
Qed.

(** X5: whatever design matrix is assembled from rectangular kernels is
    rectangular and has the column count of the energy kernel. *)
Theorem design_rectangular
        (geoms : list Atoms) (energies : vector) (kes : matrix) (reg : R)
        (t : table) (forces kgs : option matrix) (freg : option R)
        (K_NM : matrix) (Y : vector) :
  wf_matrix kes ->
  (forall G, kgs = Some G -> wf_matrix G) ->
  fit_gap_simple_design geoms energies kes reg t forces kgs freg
  = Ok (K_NM, Y) ->
  wf_matrix K_NM /\ ncols K_NM = ncols kes.
Proof.
  intros Hwf HwfG. unfold fit_gap_simple_design.
  destruct (np_broadcast1 Rminus energies _) as [es|e]; cbn [bind];
    [|discriminate].
  destruct (np_broadcast2 Rdiv kes _) as [kn|e] eqn:Hkn; cbn [bind];
    [|discriminate].
  destruct (broadcast2_column_wf _ _ _ _ Hwf Hkn) as [Hwfkn Hckn].
  destruct forces as [F|].
  - destruct kgs as [G|]; [|discriminate].
    destruct freg as [fr|]; [|discriminate].
    cbn [opt_mat_div_scalar bind]. unfold np_vstack.
    destruct (ncols kn =? ncols (mat_div_scalar G fr))%nat eqn:Hc;
      [|discriminate].
    cbn [bind].
    destruct (np_broadcast1 Rdiv es _) as [Ye|e]; cbn [bind];
      [|discriminate].
    intros H. injection H as <- _. split; [|assumption].
    apply Nat.eqb_eq in Hc. cbn [mat_div_scalar ncols] in Hc.
    unfold wf_matrix. cbn [ncols rows]. apply Forall_app. split.
    + exact Hwfkn.
    + apply Forall_forall. intros r Hr. apply in_map_iff in Hr.
      destruct Hr as (r0 & <- & Hr0). rewrite length_map, Hc.
      specialize (HwfG G eq_refl). unfold wf_matrix in HwfG.
      rewrite Forall_forall in HwfG. now apply HwfG.
  - destruct (np_broadcast1 Rdiv es _) as [Y0|e]; cbn [bind];
      [|discriminate].
    intros H. injection H as <- _. now split.
Qed.

Lemma design_rectangular_witness :
  wf_matrix (mk_matrix (ncols ex_K_NM_energy)
                       (spec_energy_rows ex_geoms ex_K_NM_energy 1))
  /\ ncols (mk_matrix (ncols ex_K_NM_energy)
                      (spec_energy_rows ex_geoms ex_K_NM_energy 1))
     = ncols ex_K_NM_energy.
Proof.
  apply (design_rectangular
           ex_geoms ex_energies ex_K_NM_energy 1 ex_table None None None
           (mk_matrix (ncols ex_K_NM_energy)
                      (spec_energy_rows ex_geoms ex_K_NM_energy 1))
           (spec_energy_targets ex_geoms ex_energies 1 ex_table)).
  - repeat constructor.
  - intros G HG. discriminate HG.
  - reflexivity.
Defined.

(** ** Shapes the fit rejects or accepts *)

Lemma spec_energy_rows_length (geoms : list Atoms) (kes : matrix) (reg : R) :
  nrows kes = length geoms ->
  length (spec_energy_rows geoms kes reg) = length geoms.
Proof.
  intros Hk. unfold spec_energy_rows. rewrite zip_with_length; assumption.
Qed.

Lemma spec_energy_targets_length (geoms : list Atoms) (energies : vector)
      (reg : R) (t : table) :
  length energies = length geoms ->
  length (spec_energy_targets geoms energies reg t) = length geoms.
Proof.
  intros He. unfold spec_energy_targets.
  rewrite zip_with_length; assumption.
Qed.

(** X6: when the forces do not flatten to as many entries as the gradient
    kernel has rows, the call raises [ValueError], whatever the sparse
    kernel is. *)
Theorem fit_rejects_force_count_mismatch
        (lstsq : matrix -> vector -> option R -> vector)
        (geoms : list Atoms) (kernel_sparse : matrix) (energies : vector)
        (kes : matrix) (reg : R) (t : table) (F G : matrix) (freg : R)
        (rcond : option R) :
  length energies = length geoms ->
  nrows kes = length geoms ->
  ncols G = ncols kes ->
  length (flatten F) <> nrows G ->
  fit_gap_simple lstsq geoms kernel_sparse energies kes reg t
    (Some F) (Some G) (Some freg) rcond
  = Err ValueError.
Proof.
  intros He Hk Hc Hne. unfold fit_gap_simple.
  rewrite (design_with_forces geoms energies kes reg t F G freg He Hk Hc).
  cbn [bind]. rewrite matmul_transpose_self. cbn [bind].
  assert (Hmv : forall K_NM Y,
             length Y <> nrows K_NM ->
             np_matvec (transpose K_NM) Y = Err ValueError).
  { intros K_NM Y H. unfold np_matvec, transpose. cbn [ncols].
    destruct (Nat.eqb_spec (nrows K_NM) (length Y)) as [Heq|_];
      [|reflexivity].
    exfalso. apply H. now symmetry. }
  rewrite Hmv.
  - unfold np_broadcast2.
    destruct (bdim (nrows kernel_sparse) _); [|reflexivity].
    destruct (bdim (ncols kernel_sparse) _); reflexivity.
  - unfold nrows. cbn [rows].
    rewrite !length_app, spec_energy_rows_length,
      spec_energy_targets_length by assumption.
    unfold spec_gradient_rows, spec_gradient_targets.
    rewrite !length_map. unfold nrows in Hne. lia.
Qed.

(** Two force rows, that is six entries, against a gradient kernel of
    five rows. *)
Lemma fit_rejects_force_count_mismatch_witness :
  fit_gap_simple (fun _ _ _ => [0]) ex_geoms (mk_matrix 2 [[1; 0]; [0; 1]])
    ex_energies ex_K_NM_energy 1 ex_table
    (Some (mk_matrix 3 [[0; 0; 1]; [0; 0; -1]]))
    (Some (mk_matrix 2 [[1; 0]; [0; 1]; [1; 1]; [2; 0]; [0; 2]]))
    (Some 1) None
  = Err ValueError.
Proof.
  apply (fit_rejects_force_count_mismatch
           (fun _ _ _ => [0]) ex_geoms (mk_matrix 2 [[1; 0]; [0; 1]])
           ex_energies ex_K_NM_energy 1 ex_table
           (mk_matrix 3 [[0; 0; 1]; [0; 0; -1]])
           (mk_matrix 2 [[1; 0]; [0; 1]; [1; 1]; [2; 0]; [0; 2]])
           1 None).
  - reflexivity.
  - reflexivity.
  - reflexivity.
  - unfold nrows, flatten. simpl. intros H. discriminate H.
Defined.

Lemma bdim_one_l (n : nat) : bdim 1 n = Some n.
Proof.
  unfold bdim. destruct (Nat.eqb_spec 1 n) as [<-|_]; reflexivity.
Qed.

Lemma bmap2_scalar_l {A B C : Type} (f : A -> B -> C) (x : A) ys :
  bmap2 f [x] ys = map (f x) ys.
Proof.
  unfold bmap2. destruct ys as [|y [|y' ys]]; reflexivity.
Qed.

Lemma zip_with_map_l {A A' B C : Type} (f : A -> B -> C) (g : A' -> A)
      xs ys :
  zip_with f (map g xs) ys = zip_with (fun x y => f (g x) y) xs ys.
Proof.
  revert ys. induction xs as [|x xs IH]; intros [|y ys]; simpl;
    try reflexivity.
  now rewrite IH.
Qed.

Lemma zip_with_diag {A C : Type} (f : A -> A -> C) xs :
  zip_with f xs xs = map (fun x => f x x) xs.
Proof.
  induction xs as [|x xs IH]; simpl; [reflexivity|]. now rewrite IH.
Qed.

(** X7: the energies are broadcast against the structures.  Energies
    whose count differs from that of the structures are rejected with
    [ValueError] when neither count is one.  A single energy is taken for
    any number of structures, and is the energy of each of them.  With a
    single structure any number of energies and of kernel rows is taken:
    each is shifted by the baseline and scaled by the regularizer of that
    structure. *)
Theorem energies_are_broadcast (kes : matrix) (reg : R) (t : table) :
  (forall lstsq geoms kernel_sparse energies forces kgs freg rcond,
      length energies <> length geoms ->
      length energies <> 1%nat ->
      length geoms <> 1%nat ->
      fit_gap_simple lstsq geoms kernel_sparse energies kes reg t
        forces kgs freg rcond
      = Err ValueError)
  /\ (forall geoms (e : R) kgs freg,
         nrows kes = length geoms ->
         fit_gap_simple_design geoms [e] kes reg t None kgs freg
         = Ok (mk_matrix (ncols kes) (spec_energy_rows geoms kes reg),
               map (fun geom =>
                      (e - _get_energy_baseline geom t)
                      / energy_scale reg geom)
                   geoms))
  /\ (forall (geom : Atoms) (energies : vector) kgs freg,
         fit_gap_simple_design [geom] energies kes reg t None kgs freg
         = Ok (mk_matrix (ncols kes)
                 (map (map (fun x => x / energy_scale reg geom)) (rows kes)),
               map (fun e =>
                      (e - _get_energy_baseline geom t)
                      / energy_scale reg geom)
                   energies)).
Proof.
  split; [|split].
  - intros lstsq geoms kernel_sparse energies forces kgs freg rcond
      Hne H1 Hg1.
    unfold fit_gap_simple, fit_gap_simple_design, np_broadcast1.
    rewrite length_map. unfold bdim.
    destruct (Nat.eqb_spec (length energies) (length geoms));
      [contradiction|].
    destruct (Nat.eqb_spec (length energies) 1); [contradiction|].
    destruct (Nat.eqb_spec (length geoms) 1); [contradiction|].
    reflexivity.
  - intros geoms e kgs freg Hk.
    destruct (energy_block geoms (map (fun _ => 0) geoms) kes reg t
                (length_map _ _) Hk) as (_ & H2 & _).
    unfold fit_gap_simple_design, np_broadcast1 at 1.
    rewrite length_map. cbn [length]. rewrite bdim_one_l. cbn [bind].
    rewrite H2. cbn [bind].
    rewrite bmap2_scalar_l, map_map.
    unfold np_broadcast1, scalar_mul_vec, np_sqrt.
    rewrite !length_map, bdim_same.
    rewrite bmap2_same_length by now rewrite !length_map.
    cbn [bind]. do 2 f_equal.
    rewrite !map_map, zip_with_map_l, zip_with_map_r, zip_with_diag.
    reflexivity.
  - intros geom energies kgs freg.
    unfold fit_gap_simple_design, np_broadcast1, np_broadcast2.
    cbn [map length newaxis_col scalar_mul_vec np_sqrt ncols rows nrows].
    rewrite !bdim_one_r. cbn [bind].
    rewrite !bmap2_scalar_r, length_map, bdim_one_r. cbn [bind].
    rewrite map_map. do 3 f_equal.
    apply map_ext. intros row. apply bmap2_scalar_r.
Qed.

(** Three energies for two structures; one energy for two structures; three
    energies and three kernel rows for one structure. *)
Lemma energies_are_broadcast_witness :
  fit_gap_simple (fun _ _ _ => [0]) ex_geoms (mk_matrix 2 [[1; 0]; [0; 1]])
    [3; 5; 7] ex_K_NM_energy 1 ex_table None None None None
  = Err ValueError
  /\ fit_gap_simple_design ex_geoms [3] ex_K_NM_energy 1 ex_table
       None None None
     = Ok (mk_matrix (ncols ex_K_NM_energy)
             (spec_energy_rows ex_geoms ex_K_NM_energy 1),
           map (fun geom =>
                  (3 - _get_energy_baseline geom ex_table)
                  / energy_scale 1 geom)
               ex_geoms)
  /\ fit_gap_simple_design [mk_Atoms [8; 1; 1]%Z] [3; 5; 7]
       (mk_matrix 2 [[1; 2]; [3; 4]; [5; 6]]) 1 ex_table None None None
     = Ok (mk_matrix 2
             (map (map (fun x => x / energy_scale 1 (mk_Atoms [8; 1; 1]%Z)))
                  [[1; 2]; [3; 4]; [5; 6]]),
           map (fun e =>
                  (e - _get_energy_baseline (mk_Atoms [8; 1; 1]%Z) ex_table)
                  / energy_scale 1 (mk_Atoms [8; 1; 1]%Z))
               [3; 5; 7]).
Proof.
  split; [|split].
  - apply (proj1 (energies_are_broadcast ex_K_NM_energy 1 ex_table)
                 (fun _ _ _ => [0]) ex_geoms (mk_matrix 2 [[1; 0]; [0; 1]])
                 [3; 5; 7] None None None None); simpl; lia.
  - apply (proj1 (proj2 (energies_are_broadcast ex_K_NM_energy 1 ex_table))
                 ex_geoms 3 None None).
    reflexivity.
  - apply (proj2 (proj2 (energies_are_broadcast
                           (mk_matrix 2 [[1; 2]; [3; 4]; [5; 6]])
                           1 ex_table))
                 (mk_Atoms [8; 1; 1]%Z) [3; 5; 7] None None).
Defined.

(** ** The system handed to the solver *)

Lemma fit_normal_form
      (lstsq : matrix -> vector -> option R -> vector)
      (geoms : list Atoms) (kernel_sparse : matrix) (energies : vector)
      (kes : matrix) (reg : R) (t : table)
      (forces kgs : option matrix) (freg rcond : option R)
      (K_NM : matrix) (Y : vector) :
  fit_gap_simple_design geoms energies kes reg t forces kgs freg
  = Ok (K_NM, Y) ->
  length Y = nrows K_NM ->
  wf_matrix kernel_sparse ->
  nrows kernel_sparse = ncols K_NM ->
  ncols kernel_sparse = ncols K_NM ->
  fit_gap_simple lstsq geoms kernel_sparse energies kes reg t
    forces kgs freg rcond
  = Ok (lstsq (normal_matrix kernel_sparse K_NM) (normal_rhs K_NM Y) rcond).
Proof.
  intros Hdesign HY Hwf Hr Hc. unfold fit_gap_simple.
  rewrite Hdesign. cbn [bind].
  rewrite matmul_transpose_self. cbn [bind].
  rewrite (add_square kernel_sparse (ncols K_NM)
             (fun i j => sum_range (nrows K_NM)
                           (fun k => entry K_NM k i * entry K_NM k j)))
    by assumption.
  cbn [bind]. rewrite matvec_transpose by assumption. cbn [bind].
  unfold np_linalg_lstsq, nrows, normal_rhs. cbn [rows].
  rewrite !length_map, Nat.eqb_refl. reflexivity.
Qed.

Lemma nth_map_seq {A : Type} (f : nat -> A) (d : A) (n i : nat) :
  nth i (map f (seq 0 n)) d = if (i <? n)%nat then f i else d.
Proof.
  destruct (Nat.ltb_spec i n) as [Hlt|Hge].
  - rewrite (nth_indep _ d (f 0%nat)) by now rewrite length_map, length_seq.
    now rewrite map_nth, seq_nth.
  - apply nth_overflow. now rewrite length_map, length_seq.
Qed.





Lemma list_as_map_nth {A : Type} (d : A) (l : list A) :
  map (fun i => nth i l d) (seq 0 (length l)) = l.
Proof.
  apply (nth_ext _ _ d d).
  - now rewrite length_map, length_seq.
  - intros n Hn. rewrite length_map, length_seq in Hn.
    rewrite nth_map_seq. apply Nat.ltb_lt in Hn. now rewrite Hn.
Qed.

(** X9: with no training structure at all the solver is handed [K_MM]
    itself and a zero right-hand side. *)
Theorem fit_without_structures
        (lstsq : matrix -> vector -> option R -> vector)
        (kernel_sparse : matrix) (M : nat) (reg : R) (t : table)
        (kgs : option matrix) (freg rcond : option R) :
  wf_matrix kernel_sparse ->
  nrows kernel_sparse = M ->
  ncols kernel_sparse = M ->
  fit_gap_simple lstsq [] kernel_sparse [] (mk_matrix M []) reg t
    None kgs freg rcond
  = Ok (lstsq kernel_sparse (repeat 0 M) rcond).
Proof.
  intros Hwf Hr Hc.
  rewrite (fit_normal_form lstsq [] kernel_sparse [] (mk_matrix M []) reg t
             None kgs freg rcond (mk_matrix M []) []);
    try reflexivity; try assumption;
    [|exact (design_energy_only [] [] (mk_matrix M []) reg t kgs freg
               eq_refl eq_refl)].
  do 2 f_equal.
  - unfold normal_matrix, sum_range, nrows, entry.
    cbn [rows ncols length seq map sum_list fold_right].
    destruct kernel_sparse as [c rs]. cbn [ncols rows] in *.
    unfold nrows in Hr. cbn [rows] in Hr. subst c. f_equal.
    unfold wf_matrix in Hwf. cbn [rows ncols] in Hwf.
    rewrite Forall_forall in Hwf.
    transitivity (map (fun i => nth i rs []) (seq 0 M)).
    + apply map_ext_in. intros i Hi. apply in_seq in Hi.
      assert (Hlen : length (nth i rs []) = M)
        by (apply Hwf, nth_In; lia).
      etransitivity; [|apply (list_as_map_nth 0)].
      rewrite Hlen. apply map_ext. intros j. lra.
    + rewrite <- Hr. apply list_as_map_nth.
  - unfold normal_rhs, sum_range, nrows.
    cbn [rows ncols length seq map sum_list fold_right].
    generalize 0%nat as s. clear. induction M as [|m IH]; intros s; simpl.
    + reflexivity.
    + now rewrite IH.
Qed.

Lemma fit_without_structures_witness :
  fit_gap_simple (fun _ b _ => b) [] (mk_matrix 2 [[1; 0]; [0; 1]]) []
    (mk_matrix 2 []) 1 ex_table None None None None
  = Ok ((fun _ b _ => b) (mk_matrix 2 [[1; 0]; [0; 1]]) (repeat 0 2)
          (@None R)).
Proof.
  apply (fit_without_structures
           (fun _ b _ => b) (mk_matrix 2 [[1; 0]; [0; 1]]) 2 1 ex_table
           None None None).
  - repeat constructor.
  - reflexivity.
  - reflexivity.
Defined.

(** ** [compute_kernels]: what is written is what is returned *)

Section KernelsSaved.

Context {Representation Features SparsePoints Kernel : Type}.
Variable models_Kernel :
  Representation -> string -> Z -> string -> string -> Kernel.
Variable kernel_self : Kernel -> SparsePoints -> ndarray.
Variable kernel_cross :
  Kernel -> Features -> SparsePoints -> bool * bool -> ndarray.

(** X10: the arrays saved are the returned kernels under their names:
    [K_MM] only when the sparse kernel is computed, [K_NM_E] always,
    [K_NM_F] only with gradients, in this order and nothing else; the
    empty array standing for a skipped sparse kernel is not saved.  The
    kernel is evaluated once for each array saved. *)
Theorem compute_kernels_saves_what_it_returns
        (rep : Representation) (soaps : Features)
        (sparse_points : SparsePoints) (soap_power : Z)
        (do_gradients compute_sparse_kernel : bool) :
  let '(ret, log) :=
    compute_kernels models_Kernel kernel_self kernel_cross
                    rep soaps sparse_points soap_power
                    do_gradients compute_sparse_kernel in
  saved_arrays log
  = (if compute_sparse_kernel
     then [("K_MM"%string, sparse_kernel_of ret)] else [])
    ++ [("K_NM_E"%string, energy_kernel_of ret)]
    ++ match gradient_kernel_of ret with
       | Some g => [("K_NM_F"%string, g)]
       | None => []
       end
  /\ evaluations log = length (saved_arrays log)
  /\ sparse_kernel_of ret
     = (if compute_sparse_kernel
        then kernel_self (models_Kernel rep "GAP"%string soap_power
                                        "Structure"%string "Sparse"%string)
                         sparse_points
        else Array1 []).
Proof.
  unfold compute_kernels.
  destruct compute_sparse_kernel, do_gradients; cbn;
    repeat split; reflexivity.
Qed.

End KernelsSaved.

(** ** [calculate_representation] and [calculate_and_sparsify] *)

Lemma overwrite_length (s : store) (r : ref) (o : object) :
  length (overwrite s r o) = length s.
Proof.
  revert r. induction s as [|x s IH]; intros [|r]; simpl; try reflexivity.
  now rewrite IH.
Qed.

Lemma overwrite_same (s : store) (r : ref) (o : object) :
  (r < length s)%nat -> nth_error (overwrite s r o) r = Some o.
Proof.
  revert r. induction s as [|x s IH]; intros [|r] H; simpl in *;
    try lia; try reflexivity.
  apply IH. lia.
Qed.

Lemma overwrite_other (s : store) (r r' : ref) (o : object) :
  r <> r' -> nth_error (overwrite s r o) r' = nth_error s r'.
Proof.
  revert r r'. induction s as [|x s IH]; intros [|r] [|r'] H; simpl;
    try reflexivity; try contradiction.
  apply IH. congruence.
Qed.

Lemma run_mapM_load_atoms refs geoms :
  forall s,
    refer_to s refs geoms ->
    st_mapM load_atoms refs s = (Ok geoms, s).
Proof.
  revert geoms. induction refs as [|r refs IH]; intros geoms s H;
    inversion H as [|? g ? geoms' Hr Hrest]; subst; simpl.
  - reflexivity.
  - rewrite st_bind_run, (run_load_atoms _ _ _ Hr).
    rewrite st_bind_run, (IH geoms' s Hrest). reflexivity.
Qed.

Section RepresentationsProperties.

Context {RepParameters Representation Features : Type}.
Context {NSparse Compressor SparsePoints : Type}.
Variable wrap : Atoms -> Atoms.
Variable transform : Representation -> list Atoms -> Features.
Variable CURFilter : Representation -> NSparse -> string -> Compressor.
Variable fit_transform : Compressor -> Features -> SparsePoints.

Lemma run_wrap_all refs :
  forall geoms s,
    NoDup refs ->
    refer_to s refs geoms ->
    exists s',
      st_for (st_wrap wrap) refs s = (Ok tt, s')
      /\ refer_to s' refs (map wrap geoms)
      /\ length s' = length s
      /\ (forall r, ~ In r refs -> nth_error s' r = nth_error s r).
Proof.
  induction refs as [|r refs IH]; intros geoms s Hnd H;
    inversion H as [|? g ? geoms' Hr Hrest]; subst; simpl.
  - exists s. repeat split; constructor.
  - inversion Hnd as [|? ? Hnotin Hnd']; subst.
    pose (s1 := overwrite s r (ObjAtoms (wrap g))).
    assert (Hrest1 : refer_to s1 refs geoms').
    { unfold refer_to in *. clear IH H Hnd Hnd'.
      induction Hrest as [|r' g' refs geoms' Hr' Hrest IHrest];
        constructor.
      - unfold s1. rewrite overwrite_other; [assumption|].
        intros ->. apply Hnotin. now left.
      - apply IHrest. intros Hin. apply Hnotin. now right. }
    destruct (IH geoms' s1 Hnd' Hrest1) as (s' & Hrun & Hrefs & Hlen & Hfr).
    exists s'. split; [|split; [|split]].
    + rewrite st_bind_run. unfold st_wrap.
      rewrite st_bind_run, (run_load_atoms _ _ _ Hr). unfold assign.
      fold s1. exact Hrun.
    + constructor; [|exact Hrefs].
      rewrite (Hfr r Hnotin). unfold s1. apply overwrite_same.
      apply nth_error_Some. congruence.
    + rewrite Hlen. unfold s1. apply overwrite_length.
    + intros r' Hr'. rewrite Hfr by (intros Hin; apply Hr'; now right).
      unfold s1. apply overwrite_other. intros ->. apply Hr'. now left.
Qed.

(** X11: without [auto_wrap] the structures are read and not touched: the
    store is left as it was and the representation is that of the
    structures as given. *)
Theorem calculate_representation_no_wrap
        (s : store) (refs : list ref) (geoms : list Atoms)
        (rep_parameters : RepParameters)
        (rep_class : RepParameters -> Representation) :
  refer_to s refs geoms ->
  calculate_representation wrap transform refs rep_parameters rep_class
                           false s
  = (Ok (rep_class rep_parameters,
         transform (rep_class rep_parameters) geoms), s).
Proof.
  intros H. unfold calculate_representation, st_transform.
  rewrite st_bind_run. unfold st_ret at 1.
  rewrite st_bind_run, st_bind_run, (run_mapM_load_atoms refs geoms s H).
  reflexivity.
Qed.

(** X12: with [auto_wrap] every structure passed is wrapped in place, so
    the caller's structures are changed; the representation is that of
    the wrapped structures; no other object is touched and none is
    created. *)
Theorem calculate_representation_wraps_in_place
        (s : store) (refs : list ref) (geoms : list Atoms)
        (rep_parameters : RepParameters)
        (rep_class : RepParameters -> Representation) :
  NoDup refs ->
  refer_to s refs geoms ->
  exists s' : store,
    calculate_representation wrap transform refs rep_parameters rep_class
                             true s
    = (Ok (rep_class rep_parameters,
           transform (rep_class rep_parameters) (map wrap geoms)), s')
    /\ refer_to s' refs (map wrap geoms)
    /\ length s' = length s
    /\ (forall r, ~ In r refs -> nth_error s' r = nth_error s r).
Proof.
  intros Hnd H.
  destruct (run_wrap_all refs geoms s Hnd H)
    as (s' & Hrun & Hrefs & Hlen & Hfr).
  exists s'. split; [|now repeat split].
  unfold calculate_representation, st_transform.
  rewrite st_bind_run, Hrun.
  rewrite st_bind_run, st_bind_run,
    (run_mapM_load_atoms refs (map wrap geoms) s' Hrefs).
  reflexivity.
Qed.

(** X13: [calculate_and_sparsify] does to the structures and returns as
    representation and feature vectors what [calculate_representation]
    does and returns; the sparse points it adds are the CUR selection from
    these feature vectors, and they are what it writes to
    [sparsepoints.json]. *)
Theorem calculate_and_sparsify_extends_calculate_representation
        (s : store) (refs : list ref)
        (rep_parameters : RepParameters) (n_sparse : NSparse)
        (rep_class : RepParameters -> Representation) (auto_wrap : bool) :
  calculate_and_sparsify wrap transform CURFilter fit_transform
    refs rep_parameters n_sparse rep_class auto_wrap s
  = match calculate_representation wrap transform refs rep_parameters
                                   rep_class auto_wrap s with
    | (Ok (rep, soaps), s') =>
        let sparse_points :=
          fit_transform
            (CURFilter rep n_sparse "sample per species"%string) soaps in
        (Ok ((rep, soaps, sparse_points),
             [DumpObj "sparsepoints.json"%string sparse_points]), s')
    | (Err e, s') => (Err e, s')
    end.
Proof.
  unfold calculate_and_sparsify, calculate_representation.
  rewrite !st_bind_run.
  destruct ((if auto_wrap then st_for (st_wrap wrap) refs else st_ret tt) s)
    as [[[]|e] s1]; [|reflexivity].
  rewrite !st_bind_run.
  destruct (st_transform transform (rep_class rep_parameters) refs s1)
    as [[soaps|e] s2]; reflexivity.
Qed.

End RepresentationsProperties.

(** Two structures in the store; wrapping keeps the atomic numbers. *)
Lemma calculate_representation_no_wrap_witness :
  calculate_representation
    (fun g => mk_Atoms (numbers g)) (fun (_ : unit) gs => gs)
    [0%nat; 1%nat] tt (fun _ : unit => tt) false
    [ObjAtoms (mk_Atoms [1%Z]); ObjAtoms (mk_Atoms [8%Z])]
  = (Ok (tt, [mk_Atoms [1%Z]; mk_Atoms [8%Z]]),
     [ObjAtoms (mk_Atoms [1%Z]); ObjAtoms (mk_Atoms [8%Z])]).
Proof.
  apply (calculate_representation_no_wrap
           (fun g => mk_Atoms (numbers g)) (fun (_ : unit) gs => gs)
           [ObjAtoms (mk_Atoms [1%Z]); ObjAtoms (mk_Atoms [8%Z])]
           [0%nat; 1%nat] [mk_Atoms [1%Z]; mk_Atoms [8%Z]]
           tt (fun _ : unit => tt)).
  repeat constructor.
Defined.

Lemma calculate_representation_wraps_in_place_witness :
  let s := [ObjAtoms (mk_Atoms [1%Z]); ObjAtoms (mk_Atoms [8%Z])] in
  let wrap := fun g => mk_Atoms (numbers g) in
  exists s' : store,
    calculate_representation
      wrap (fun (_ : unit) gs => gs) [0%nat; 1%nat] tt (fun _ : unit => tt)
      true s
    = (Ok (tt, map wrap [mk_Atoms [1%Z]; mk_Atoms [8%Z]]), s')
    /\ refer_to s' [0%nat; 1%nat]
                (map wrap [mk_Atoms [1%Z]; mk_Atoms [8%Z]])
    /\ length s' = length s
    /\ (forall r, ~ In r [0%nat; 1%nat] -> nth_error s' r = nth_error s r).
Proof.
  intros s wrap.
  apply (calculate_representation_wraps_in_place
           wrap (fun (_ : unit) gs => gs) s [0%nat; 1%nat]
           [mk_Atoms [1%Z]; mk_Atoms [8%Z]] tt (fun _ : unit => tt)).
  - repeat constructor; simpl; intuition discriminate.
  - repeat constructor.
Defined.

(** ** The ascending angular lists *)

Lemma py_range_length (a b : Z) : length (py_range a b) = Z.to_nat (b - a).
Proof. unfold py_range. now rewrite length_map, length_seq. Qed.

Lemma py_range_In (a b m : Z) :
  In m (py_range a b) -> (a <= m < b)%Z.
Proof.
  unfold py_range. intros H. apply in_map_iff in H.
  destruct H as (i & <- & Hi). apply in_seq in Hi. lia.
Qed.

Lemma py_range_nth (a b : Z) (i : nat) (d : Z) :
  (i < Z.to_nat (b - a))%nat ->
  nth i (py_range a b) d = (a + Z.of_nat i)%Z.
Proof.
  intros Hi. unfold py_range.
  rewrite (nth_indep _ d ((fun i => (a + Z.of_nat i)%Z) 0%nat))
    by now rewrite length_map, length_seq.
  rewrite (map_nth (fun i => (a + Z.of_nat i)%Z)), seq_nth by assumption.
  reflexivity.
Qed.

Lemma py_range_split (a b c : Z) :
  (a <= b <= c)%Z -> py_range a c = py_range a b ++ py_range b c.
Proof.
  intros H. unfold py_range.
  replace (Z.to_nat (c - a)) with (Z.to_nat (b - a) + Z.to_nat (c - b))%nat
    by lia.
  rewrite seq_app, map_app. f_equal. cbn [Nat.add].
  rewrite <- (Nat.add_0_r (Z.to_nat (b - a))) at 1.
  generalize 0%nat as s. induction (Z.to_nat (c - b)) as [|n IH]; intros s.
  - reflexivity.
  - cbn [seq map]. f_equal; [lia|].
    rewrite <- (IH (S s)). f_equal. f_equal. lia.
Qed.

Lemma py_range_succ (a b : Z) :
  (a <= b)%Z -> py_range a (b + 1) = py_range a b ++ [b].
Proof.
  intros H. rewrite (py_range_split a b (b + 1)) by lia. f_equal.
  unfold py_range. replace (b + 1 - b)%Z with 1%Z by lia.
  change (Z.to_nat 1) with 1%nat. cbn [seq map Z.of_nat].
  now rewrite Z.add_0_r.
Qed.

Lemma py_range_empty (a b : Z) : (b <= a)%Z -> py_range a b = [].
Proof.
  intros H. unfold py_range.
  replace (Z.to_nat (b - a)) with 0%nat by lia. reflexivity.
Qed.

Lemma fold_left_pair_app {A B C : Type} (f : C -> list A) (g : C -> list B)
      (xs : list C) (a : list A) (b : list B) :
  fold_left (fun '(ms, ls) x => (ms ++ f x, ls ++ g x)) xs (a, b)
  = (a ++ flat_map f xs, b ++ flat_map g xs).
Proof.
  revert a b. induction xs as [|x xs IH]; intros a b; simpl.
  - now rewrite !app_nil_r.
  - now rewrite IH, !app_assoc.
Qed.

Lemma ascending_lists_blocks (L : Z) :
  get_ascending_angular_lists L
  = (flat_map m_block (py_range 0 (L + 1)),
     flat_map l_block (py_range 0 (L + 1))).
Proof.
  unfold get_ascending_angular_lists.
  now rewrite (fold_left_pair_app m_block l_block).
Qed.

Lemma m_block_length (l : Z) :
  (0 <= l)%Z -> length (m_block l) = Z.to_nat (2 * l + 1).
Proof.
  intros H. unfold m_block. rewrite py_range_length. f_equal. lia.
Qed.

Lemma l_block_length (l : Z) : length (l_block l) = Z.to_nat (2 * l + 1).
Proof.
  unfold l_block, py_repeat. rewrite repeat_length. f_equal. lia.
Qed.

Lemma flat_map_length_blocks (f : Z -> list Z) (L : Z) :
  (forall l, (0 <= l)%Z -> length (f l) = Z.to_nat (2 * l + 1)) ->
  (0 <= L)%Z ->
  length (flat_map f (py_range 0 L)) = Z.to_nat (L * L).
Proof.
  intros Hf. revert L. apply natlike_ind.
  - reflexivity.
  - intros L HL IH. unfold Z.succ.
    rewrite py_range_succ, flat_map_app, length_app, IH by assumption.
    cbn [flat_map]. rewrite app_nil_r, Hf by assumption. nia.
Qed.

(** X14: both lists have [(max_angular_l + 1)^2] entries, and none when
    [max_angular_l] is negative. *)
Theorem ascending_lists_length (max_angular_l : Z) :
  let n := Z.max 0 (max_angular_l + 1) in
  length (fst (get_ascending_angular_lists max_angular_l)) = Z.to_nat (n * n)
  /\ length (snd (get_ascending_angular_lists max_angular_l))
     = Z.to_nat (n * n).
Proof.
  intros n. rewrite ascending_lists_blocks. cbn [fst snd].
  destruct (Z.le_gt_cases 0 (max_angular_l + 1)) as [Hpos|Hneg].
  - replace n with (max_angular_l + 1)%Z by lia.
    split; apply flat_map_length_blocks; try assumption.
    + apply m_block_length.
    + intros l _. apply l_block_length.
  - replace n with 0%Z by lia.
    rewrite py_range_empty by lia. split; reflexivity.
Qed.

Lemma flat_map_blocks_nth_error (f : Z -> list Z) (L : Z) :
  (forall l, (0 <= l)%Z -> length (f l) = Z.to_nat (2 * l + 1)) ->
  (0 <= L)%Z ->
  forall l k : Z,
    (0 <= l < L)%Z ->
    (0 <= k < 2 * l + 1)%Z ->
    nth_error (flat_map f (py_range 0 L)) (Z.to_nat (l * l + k))
    = nth_error (f l) (Z.to_nat k).
Proof.
  intros Hf. revert L. apply (natlike_ind (fun L => forall l k, _ -> _ -> _)).
  - intros l k Hl. lia.
  - intros L HL IH l k Hl Hk. unfold Z.succ in *.
    rewrite py_range_succ, flat_map_app by assumption.
    cbn [flat_map]. rewrite app_nil_r.
    pose proof (flat_map_length_blocks f L Hf HL) as Hlen.
    destruct (Z.eq_dec l L) as [->|Hne].
    + rewrite nth_error_app2 by (rewrite Hlen; lia).
      rewrite Hlen. f_equal. lia.
    + rewrite nth_error_app1 by (rewrite Hlen; nia).
      apply IH; lia.
Qed.

(** X15: the lists are in the compressed format: the entry for [(l, m)]
    is at position [l^2 + l + m] of both. *)
Theorem ascending_lists_index (max_angular_l l m : Z) :
  (0 <= l <= max_angular_l)%Z ->
  (- l <= m <= l)%Z ->
  nth_error (fst (get_ascending_angular_lists max_angular_l))
            (Z.to_nat (l * l + l + m)) = Some m
  /\ nth_error (snd (get_ascending_angular_lists max_angular_l))
               (Z.to_nat (l * l + l + m)) = Some l.
Proof.
  intros Hl Hm. rewrite ascending_lists_blocks. cbn [fst snd].
  replace (l * l + l + m)%Z with (l * l + (l + m))%Z by lia.
  split.
  - rewrite (flat_map_blocks_nth_error m_block)
      by (try apply m_block_length; lia).
    unfold m_block.
    rewrite (nth_error_nth' _ 0%Z) by (rewrite py_range_length; lia).
    rewrite py_range_nth by lia. f_equal. lia.
  - rewrite (flat_map_blocks_nth_error l_block)
      by (try (intros; apply l_block_length); lia).
    unfold l_block, py_repeat.
    rewrite (nth_error_nth' _ l) by (rewrite repeat_length; lia).
    now rewrite nth_repeat.
Qed.

Lemma ascending_lists_index_witness :
  nth_error (fst (get_ascending_angular_lists 3))
            (Z.to_nat (2 * 2 + 2 + -1)) = Some (-1)%Z
  /\ nth_error (snd (get_ascending_angular_lists 3))
               (Z.to_nat (2 * 2 + 2 + -1)) = Some 2%Z.
Proof.
  apply (ascending_lists_index 3 2 (-1)); lia.
Defined.

Lemma Forall2_flat_map {A B C : Type} (P : A -> B -> Prop)
      (f : C -> list A) (g : C -> list B) (xs : list C) :
  (forall x, In x xs -> Forall2 P (f x) (g x)) ->
  Forall2 P (flat_map f xs) (flat_map g xs).
Proof.
  induction xs as [|x xs IH]; intros H; simpl.
  - constructor.
  - apply Forall2_app.
    + apply H. now left.
    + apply IH. intros y Hy. apply H. now right.
Qed.

Lemma Forall2_repeat_r {A B : Type} (P : A -> B -> Prop) (xs : list A)
      (b : B) :
  (forall x, In x xs -> P x b) -> Forall2 P xs (repeat b (length xs)).
Proof.
  induction xs as [|x xs IH]; intros H; simpl; constructor.
  - apply H. now left.
  - apply IH. intros y Hy. apply H. now right.
Qed.

Lemma blocks_paired (P : Z -> Z -> Prop) (L : Z) :
  (forall l m, (0 <= l < L)%Z -> (- l <= m <= l)%Z -> P m l) ->
  Forall2 P (flat_map m_block (py_range 0 L))
            (flat_map l_block (py_range 0 L)).
Proof.
  intros H. apply Forall2_flat_map. intros l Hl.
  apply py_range_In in Hl.
  unfold l_block, py_repeat.
  replace (Z.to_nat (l * 2 + 1)) with (length (m_block l))
    by (rewrite m_block_length; lia).
  apply Forall2_repeat_r. intros m Hm. apply py_range_In in Hm.
  apply H; lia.
Qed.

(** X16: the two lists pair up entry by entry: every [l] is between [0]
    and [max_angular_l] and its [m] is between [-l] and [l]. *)
Theorem ascending_lists_pairs (max_angular_l : Z) :
  Forall2 (fun m l => (0 <= l <= max_angular_l)%Z /\ (- l <= m <= l)%Z)
          (fst (get_ascending_angular_lists max_angular_l))
          (snd (get_ascending_angular_lists max_angular_l)).
Proof.
  rewrite ascending_lists_blocks. cbn [fst snd].
  apply blocks_paired. intros l m Hl Hm. lia.
Qed.

(** ** The reference data follow the ascending lists *)

Lemma fold_left_app_singleton {A B : Type} (f : B -> A) (xs : list B)
      (acc : list A) :
  fold_left (fun acc x => acc ++ [f x]) xs acc = acc ++ map f xs.
Proof.
  revert acc. induction xs as [|x xs IH]; intros acc; simpl.
  - now rewrite app_nil_r.
  - now rewrite IH, <- app_assoc.
Qed.

Lemma fold_left_app_blocks {A B : Type} (step : list A -> B -> list A)
      (f : B -> list A) (xs : list B) (acc : list A) :
  (forall x h, In x xs -> step h x = h ++ f x) ->
  fold_left step xs acc = acc ++ flat_map f xs.
Proof.
  revert acc. induction xs as [|x xs IH]; intros acc H; simpl.
  - now rewrite app_nil_r.
  - rewrite H by now left.
    rewrite IH by (intros y h Hy; apply H; now right).
    now rewrite app_assoc.
Qed.

Lemma zip_with_app {A B C : Type} (f : A -> B -> C) xs1 xs2 ys1 ys2 :
  length xs1 = length ys1 ->
  zip_with f (xs1 ++ xs2) (ys1 ++ ys2)
  = zip_with f xs1 ys1 ++ zip_with f xs2 ys2.
Proof.
  revert ys1. induction xs1 as [|x xs1 IH]; intros [|y ys1] H;
    try discriminate; simpl.
  - reflexivity.
  - injection H as H. now rewrite IH.
Qed.

Lemma zip_with_repeat_r {A B C : Type} (f : A -> B -> C) xs (b : B) :
  zip_with f xs (repeat b (length xs)) = map (fun x => f x b) xs.
Proof.
  induction xs as [|x xs IH]; simpl; [reflexivity|]. now rewrite IH.
Qed.

(** Pairing the two lists entry by entry goes block by block. *)
Lemma zip_with_blocks {C : Type} (f : Z -> Z -> C) (L : Z) :
  zip_with f (flat_map m_block (py_range 0 L))
             (flat_map l_block (py_range 0 L))
  = flat_map (fun l => map (fun m => f m l) (m_block l)) (py_range 0 L).
Proof.
  assert (H : forall xs : list Z,
             (forall l, In l xs -> (0 <= l)%Z) ->
             zip_with f (flat_map m_block xs) (flat_map l_block xs)
             = flat_map (fun l => map (fun m => f m l) (m_block l)) xs).
  { induction xs as [|l xs IH]; intros Hpos; simpl; [reflexivity|].
    assert (Hl : (0 <= l)%Z) by (apply Hpos; now left).
    rewrite zip_with_app
      by (rewrite m_block_length, l_block_length by assumption;
          reflexivity).
    rewrite IH by (intros l' Hl'; apply Hpos; now right).
    f_equal. unfold l_block, py_repeat.
    replace (Z.to_nat (l * 2 + 1)) with (length (m_block l))
      by (rewrite m_block_length; lia).
    apply zip_with_repeat_r. }
  apply H. intros l Hl. apply py_range_In in Hl. lia.
Qed.

Section ReferenceDataProperties.

Variable sph_harm : Z -> Z -> R -> R -> R * R.
Variable arccos : R -> R.
Variable arctan2 : R -> R -> R.
Context {Legendre : Type}.
Variable lpmn_real : Z -> Z -> R -> Legendre.

(** X17: the harmonics of a unit vector are the real spherical harmonics
    of its angles, listed in the order of the two ascending lists: the
    imaginary part for [m < 0], the real part for [m >= 0], the factor
    [sqrt 2] for [m <> 0]. *)
Theorem reference_harmonics_order (max_angular_l : Z) (v0 v1 v2 : R) :
  reference_harmonics sph_harm arccos arctan2 max_angular_l (v0, v1, v2)
  = zip_with (real_harmonic sph_harm (arctan2 v1 v0) (arccos v2))
             (fst (get_ascending_angular_lists max_angular_l))
             (snd (get_ascending_angular_lists max_angular_l)).
Proof.
  rewrite ascending_lists_blocks. cbn [fst snd].
  rewrite zip_with_blocks. unfold reference_harmonics.
  rewrite (fold_left_app_blocks _
             (fun l => map (fun m => real_harmonic sph_harm (arctan2 v1 v0)
                                                   (arccos v2) m l)
                           (m_block l)));
    [reflexivity|].
  intros l h Hl. apply py_range_In in Hl.
  rewrite !fold_left_app_singleton.
  unfold m_block.
  rewrite (py_range_split (- l) 0 (l + 1)) by lia.
  rewrite (py_range_split 0 1 (l + 1)) by lia.
  rewrite !map_app, <- !app_assoc.
  apply (f_equal (app h)). apply f_equal2; [|apply f_equal2].
  - apply map_ext_in. intros m Hm. apply py_range_In in Hm.
    unfold real_harmonic.
    destruct (Z.ltb_spec m 0); [reflexivity|lia].
  - reflexivity.
  - apply map_ext_in. intros m Hm. apply py_range_In in Hm.
    unfold real_harmonic.
    destruct (Z.ltb_spec m 0); [lia|].
    destruct (Z.eqb_spec m 0); [lia|reflexivity].
Qed.

Lemma fold_left_records {A B : Type} (f : A -> B) (xs : list A) :
  fold_left (fun data x => data ++ [f x]) xs [] = map f xs.
Proof. now rewrite fold_left_app_singleton. Qed.

(** X18: [dump_reference_json] dumps one record for each unit vector, in
    order, each for [max_angular_l = 31] and with [1024] harmonics, and
    prints the number of unit vectors. *)
Theorem dump_reference_json_records (unit_vectors : list unit_vector) :
  let '(data, printed) :=
    dump_reference_json sph_harm arccos arctan2 unit_vectors in
  map hr_unit_vector data = unit_vectors
  /\ printed = length unit_vectors
  /\ Forall (fun r => hr_max_angular_l r = 31%Z
                      /\ length (hr_harmonics r) = 1024%nat) data.
Proof.
  unfold dump_reference_json. rewrite fold_left_records.
  split; [|split].
  - rewrite map_map. cbn [hr_unit_vector]. apply map_id.
  - apply length_map.
  - apply Forall_forall. intros r Hr. apply in_map_iff in Hr.
    destruct Hr as ([[v0 v1] v2] & <- & _). cbn [hr_max_angular_l hr_harmonics].
    split; [reflexivity|].
    rewrite reference_harmonics_order.
    destruct (ascending_lists_length 31) as [Hm Hl].
    rewrite zip_with_length by now rewrite Hm, Hl.
    rewrite Hm. reflexivity.
Qed.

(** X19: the Legendre values of a direction are listed in the order of
    the two ascending lists, each for the third component of the
    direction. *)
Theorem reference_lpmn_order (max_angular_l : Z) (v0 v1 z : R) :
  reference_lpmn lpmn_real max_angular_l (v0, v1, z)
  = zip_with (fun m l => lpmn_real m l z)
             (fst (get_ascending_angular_lists max_angular_l))
             (snd (get_ascending_angular_lists max_angular_l)).
Proof.
  rewrite ascending_lists_blocks. cbn [fst snd].
  rewrite zip_with_blocks. unfold reference_lpmn.
  apply (fold_left_app_blocks _
           (fun l => map (fun m => lpmn_real m l z) (m_block l))).
  intros l h _. apply fold_left_app_singleton.
Qed.

End ReferenceDataProperties.

(** ** [setup.py] *)

Lemma str_remove_app (c : Ascii.ascii) (s1 s2 : str) :
  str_remove c (s1 ++ s2) = str_remove c s1 ++ str_remove c s2.
Proof. apply filter_app. Qed.

Lemma str_remove_join (c : Ascii.ascii) (sep : str) (parts : list str) :
  str_remove c sep = sep ->
  str_remove c (str_join sep parts)
  = str_join sep (map (str_remove c) parts).
Proof.
  intros Hsep. induction parts as [|x [|y rest] IH].
  - reflexivity.
  - reflexivity.
  - change (str_join sep (x :: y :: rest))
      with (x ++ sep ++ str_join sep (y :: rest)).
    rewrite !str_remove_app, Hsep, IH. reflexivity.
Qed.

Lemma str_remove_absent (c : Ascii.ascii) (s : str) :
  ~ In c s -> str_remove c s = s.
Proof.
  induction s as [|x s IH]; intros H; simpl; [reflexivity|].
  destruct (Ascii.eqb_spec x c) as [->|_].
  - exfalso. apply H. now left.
  - simpl. f_equal. apply IH. intros Hin. apply H. now right.
Qed.

Lemma str_remove_line (c : Ascii.ascii) (s : str) :
  ~ In c s -> str_remove c (s ++ [c]) = s.
Proof.
  intros H. rewrite str_remove_app, (str_remove_absent c s H).
  simpl. rewrite Ascii.eqb_refl. simpl. apply app_nil_r.
Qed.

(** X20: the author string has no line end left in it; when every line
    of the file is a name followed by its line end, it is the names
    separated by a comma and a space. *)
Theorem author_joins_names (names : list str) (lines : list str) :
  ~ In newline (author lines)
  /\ (Forall (fun name => ~ In newline name) names ->
      author (map (fun name => name ++ [newline]) names)
      = str_join comma_space names).
Proof.
  split.
  - unfold author, str_remove. intros Hin. apply filter_In in Hin.
    destruct Hin as [_ Hne]. now rewrite Ascii.eqb_refl in Hne.
  - intros Hnames. unfold author.
    rewrite str_remove_join by reflexivity.
    rewrite map_map. f_equal.
    rewrite <- (map_id names) at 2. apply map_ext_in.
    intros name Hin. apply str_remove_line.
    rewrite Forall_forall in Hnames. now apply Hnames.
Qed.

Lemma In_drop_while {A : Type} (p : A -> bool) (l : list A) (x : A) :
  In x (drop_while p l) -> In x l.
Proof.
  induction l as [|y l IH]; simpl; [exact (fun H => H)|].
  destruct (p y); [|exact (fun H => H)].
  intros H. right. now apply IH.
Qed.

Lemma In_drop_while_kept {A : Type} (p : A -> bool) (l : list A) (x : A) :
  p x = false -> In x l -> In x (drop_while p l).
Proof.
  intros Hx. induction l as [|y l IH]; simpl; [exact (fun H => H)|].
  destruct (p y) eqn:Hy; [|exact (fun H => H)].
  intros [->|H]; [congruence|now apply IH].
Qed.

Lemma drop_while_all {A : Type} (p : A -> bool) (l : list A) :
  Forall (fun x => p x = true) l -> drop_while p l = [].
Proof.
  induction 1 as [|x l Hx _ IH]; simpl; [reflexivity|]. now rewrite Hx.
Qed.

Lemma str_contains_In (c : Ascii.ascii) (s : str) :
  str_contains c s = true <-> In c s.
Proof.
  unfold str_contains. rewrite existsb_exists. split.
  - intros (x & Hx & Heq). apply Ascii.eqb_eq in Heq. now subst.
  - intros H. exists c. split; [assumption|apply Ascii.eqb_refl].
Qed.

Lemma str_contains_strip (is_space : Ascii.ascii -> bool) (c : Ascii.ascii)
      (s : str) :
  is_space c = false ->
  str_contains c (str_strip is_space s) = str_contains c s.
Proof.
  intros Hc. apply eq_true_iff_eq. rewrite !str_contains_In.
  unfold str_strip. rewrite <- in_rev. split.
  - intros H. apply In_drop_while in H. rewrite <- in_rev in H.
    now apply In_drop_while in H.
  - intros H. apply In_drop_while_kept; [assumption|].
    rewrite <- in_rev. now apply In_drop_while_kept.
Qed.

(** X21: a line is kept as a requirement exactly when it has no [#]
    anywhere: a requirement followed by a comment is dropped whole.  The
    lines kept are stripped and stay in order, blank lines among them, as
    empty requirements. *)
Theorem requirements_drop_commented_lines
        (is_space : Ascii.ascii -> bool) (lines : list str) :
  is_space hash = false ->
  requirements is_space lines
  = map (str_strip is_space)
        (filter (fun line => negb (str_contains hash line)) lines)
  /\ Forall (fun x => ~ In hash x) (requirements is_space lines)
  /\ (forall line,
         In line lines ->
         Forall (fun c => is_space c = true) line ->
         In [] (requirements is_space lines)).
Proof.
  intros Hhash.
  assert (Heq : requirements is_space lines
                = map (str_strip is_space)
                      (filter (fun line => negb (str_contains hash line))
                              lines)).
  { unfold requirements. induction lines as [|line lines IH]; simpl.
    - reflexivity.
    - rewrite (str_contains_strip is_space hash line Hhash).
      destruct (str_contains hash line); simpl; now rewrite IH. }
  split; [exact Heq|split].
  - unfold requirements. apply Forall_forall. intros x Hx.
    apply filter_In in Hx. destruct Hx as [_ Hx].
    intros Hin. apply str_contains_In in Hin. now rewrite Hin in Hx.
  - intros line Hin Hblank. rewrite Heq.
    assert (Hstrip : str_strip is_space line = []).
    { unfold str_strip. now rewrite (drop_while_all is_space line Hblank). }
    rewrite <- Hstrip. apply in_map. apply filter_In. split; [assumption|].
    destruct (str_contains hash line) eqn:Hc; [|reflexivity].
    apply str_contains_In in Hc.
    rewrite Forall_forall in Hblank. specialize (Hblank hash Hc).
    congruence.
Qed.

Lemma author_joins_names_witness :
  ~ In newline (author (map (fun name => name ++ [newline]) ex_names))
  /\ author (map (fun name => name ++ [newline]) ex_names)
     = str_join comma_space ex_names.
Proof.
  destruct (author_joins_names
              ex_names (map (fun name => name ++ [newline]) ex_names))
    as [H1 H2].
  split; [exact H1|]. apply H2.
  repeat constructor; unfold newline; simpl; intuition discriminate.
Defined.

Lemma requirements_drop_commented_lines_witness :
  requirements ex_is_space ex_requirement_lines
  = map (str_strip ex_is_space)
        (filter (fun line => negb (str_contains hash line))
                ex_requirement_lines)
  /\ Forall (fun x => ~ In hash x)
            (requirements ex_is_space ex_requirement_lines)
  /\ (forall line,
         In line ex_requirement_lines ->
         Forall (fun c => ex_is_space c = true) line ->
         In [] (requirements ex_is_space ex_requirement_lines)).
Proof.
  apply (requirements_drop_commented_lines ex_is_space ex_requirement_lines).
  reflexivity.
Defined.
